(** * Ergometer's utility module, embedded in Rocq

    A shallow embedding of the helpers of [util.js]: [assert], the binary
    searches [lowerBound] and [upperBound], [mod], the [range] generator
    and the keyed dispatch [switchOnKey]; then [getLast], [maxBy],
    [makeObject], the generators [enumerate], [map] and [zip], and the
    text [sha256] makes of a digest.

    Conventions of the embedding.
    - A JavaScript number is an integer of [Z]; [NaN] is a value of its
      own where the whole value universe is needed ([value]). The
      numbers of the code are binary64: an integer stands for itself
      when binary64 holds it, and a sum is rounded to 53 bits
      ([round_to_double]). [mod] rounds its sum; the generator of
      [range] adds exactly, which is what the code does as long as the
      numbers are safe integers ([is_safe_integer]), and the theorems
      about the values it yields assume so.
    - An exception is a [Throw] of the [result] monad.
    - A loop whose termination is itself a property is run on fuel and
      returns [None] when the fuel is used up.
    - An object is the finite map of its own properties.

    The repository holds the module twice. [assert] and [switchOnKey]
    read the same in both copies; [range] does not, and the copy of
    [src/util.js] is kept apart in [UtilJs]. *)

From Stdlib Require Import ZArith Lia.
From stdpp Require Import base option list gmap strings.

(** ** Exceptions *)

(** [Error('Assertion failed')] is the only error the module throws by
    itself; calling something that is not a function is the engine's
    [TypeError]. *)
Inductive error : Set :=
| AssertionFailed
| TypeError.

Inductive result (A : Type) : Type :=
| Ok (a : A)
| Throw (e : error).
Arguments Ok {A} a.
Arguments Throw {A} e.

(** The exception monad, with stdpp's [x ← r; k] for sequencing. *)
#[export] Instance result_ret : MRet result := fun A a => Ok a.
#[export] Instance result_bind : MBind result :=
  fun A B k r =>
    match r with
    | Ok a => k a
    | Throw e => Throw e
    end.

(** ** Values and truthiness *)

(** The first-order JavaScript values. An object is the map of its own
    properties; functions are kept apart (see [callee]). *)
#[warnings="-register-all"]
Inductive value : Type :=
| VUndefined
| VNull
| VBool (b : bool)
| VNumber (n : Z)
| VNaN
| VString (s : string)
| VObject (props : gmap string value).

Definition object := gmap string value.

(** ECMAScript's ToBoolean, the conversion [!v] and [if (v)] apply. *)
Class ToBoolean (A : Type) := to_boolean : A -> bool.

#[export] Instance bool_to_boolean : ToBoolean bool := fun b => b.

(** A number is falsy when it is zero. *)
#[export] Instance number_to_boolean : ToBoolean Z := fun n => negb (n =? 0)%Z.

(** A length ([args.length], [xs.length]) is a number. *)
#[export] Instance length_to_boolean : ToBoolean nat :=
  fun n => negb (Nat.eqb n 0).

(** A string is falsy when it is empty. *)
#[export] Instance string_to_boolean : ToBoolean string :=
  fun s => match s with EmptyString => false | String _ _ => true end.

(** A variable that is [undefined] until it is assigned an [A]. *)
#[export] Instance option_to_boolean {A} `{ToBoolean A} : ToBoolean (option A) :=
  fun o => match o with None => false | Some a => to_boolean a end.

#[export] Instance value_to_boolean : ToBoolean value :=
  fun v =>
    match v with
    | VUndefined | VNull | VNaN => false
    | VBool b => to_boolean b
    | VNumber n => to_boolean n
    | VString s => to_boolean s
    | VObject _ => true
    end.

(** The values ToBoolean sends to [false]. *)
Definition falsy (v : value) : Prop :=
  v = VUndefined \/ v = VNull \/ v = VBool false \/ v = VNumber 0%Z \/
  v = VNaN \/ v = VString EmptyString.

(** ** [assert] *)

(** [[
export function assert(value) {
  if (!value) {
    throw Error('Assertion failed')
  }
  return value
}
]] *)
Definition assert {A} `{ToBoolean A} (value : A) : result A :=
  if negb (to_boolean value) then Throw AssertionFailed else Ok value.

(** ** Numbers *)

(** [Number.MAX_SAFE_INTEGER] and [Number.isSafeInteger], on integers. *)
Definition MAX_SAFE_INTEGER : Z := (2 ^ 53 - 1)%Z.

Definition is_safe_integer (z : Z) : Prop := (Z.abs z <= MAX_SAFE_INTEGER)%Z.

(** The binary64 number nearest to the integer [z], ties to the even
    significand: an integer below [2 ^ 53] in size is kept, a larger one
    is rounded to 53 significant bits. (Past the largest binary64 number
    the code has [Infinity]; no sum below gets there.) *)
Definition round_to_double (z : Z) : Z :=
  let e := Z.log2 (Z.abs z) in
  if (e <? 53)%Z then z
  else
    let ulp := (2 ^ (e - 52))%Z in
    let q := (Z.abs z / ulp)%Z in
    let r := (Z.abs z mod ulp)%Z in
    let q' :=
      if (2 * r <? ulp)%Z then q
      else if (ulp <? 2 * r)%Z then (q + 1)%Z
      else if Z.even q then q else (q + 1)%Z in
    (Z.sgn z * (q' * ulp))%Z.

(** ** [mod] *)

(** [mod] is a reserved notation of Rocq, hence [mod_]. [%] on numbers
    truncates: the remainder has the sign of the dividend ([Z.rem]), and
    is exact in binary64. [Math.sign] is [Z.sgn]. The sum
    [remainder + divisor] is rounded.
[[
export function mod(dividend, divisor) {
  let remainder = dividend % divisor
  if (remainder && Math.sign(dividend) != Math.sign(divisor)) {
    remainder += divisor
  }
  return remainder
}
]] *)
Definition mod_ (dividend divisor : Z) : Z :=
  let remainder := Z.rem dividend divisor in
  if to_boolean remainder && negb (Z.sgn dividend =? Z.sgn divisor)%Z
  then round_to_double (remainder + divisor)
  else remainder.

(** ** Binary search *)

(** [<] on a type of keys that JavaScript orders totally: the numbers
    other than [NaN], or the strings. *)
Class JsOrder (K : Type) : Type := {
  js_lt : K -> K -> bool;
  js_lt_irrefl : forall a, js_lt a a = false;
  js_lt_trans : forall a b c,
    js_lt a b = true -> js_lt b c = true -> js_lt a c = true;
  js_lt_connex : forall a b, js_lt a b = false -> js_lt b a = false -> a = b
}.

(** [a <= b] is evaluated as the negation of [b < a] (ECMAScript,
    relational operators), and [a >= b] as the negation of [a < b]. *)
Definition js_le {K} `{JsOrder K} (a b : K) : bool := negb (js_lt b a).
Definition js_ge {K} `{JsOrder K} (a b : K) : bool := negb (js_lt a b).
Definition js_gt {K} `{JsOrder K} (a b : K) : bool := js_lt b a.

#[export, refine] Instance number_order : JsOrder Z := {| js_lt := Z.ltb |}.
Proof.
  - intros a. apply Z.ltb_irrefl.
  - intros a b c Hab Hbc. apply Z.ltb_lt. apply Z.ltb_lt in Hab, Hbc. lia.
  - intros a b Hab Hba. apply Z.ltb_ge in Hab, Hba. lia.
Defined.

(** The search window [[start, end)]. *)
Record window : Set := Window { start : nat; end_ : nat }.

Definition width (w : window) : nat := end_ w - start w.

(** The default of the [key] parameter, [x => x]. *)
Definition identity {A} (x : A) : A := x.

(** [[
const binarySearchWith = compare => (xs, x, key = x => x) => {
  let start = 0
  let end = xs.length
  while (start < end) {
    const i = Math.floor((start + end) / 2)
    if (compare(key(xs[i]), x)) {
      start = i + 1
    } else {
      end = i
    }
  }
  return start
}
export const lowerBound = binarySearchWith((a, b) => a < b)
export const upperBound = binarySearchWith((a, b) => a <= b)
]] *)
Section BinarySearch.
Context {T K : Type} `{Inhabited T}.

(** One iteration of the loop body. [xs[i]] is [xs !!! i]: a read out
    of range would give [undefined], here the inhabitant of [T]; the
    loop makes none ([midpoint_in_range]). *)
Definition loop_body (compare : K -> K -> bool) (xs : list T) (x : K)
    (key : T -> K) (w : window) : window :=
  let i := (start w + end_ w) / 2 in
  if compare (key (xs !!! i)) x
  then {| start := i + 1; end_ := end_ w |}
  else {| start := start w; end_ := i |}.

(** The [while] loop, on fuel: [None] when the fuel is used up before
    the loop exits. *)
Fixpoint loop (compare : K -> K -> bool) (xs : list T) (x : K)
    (key : T -> K) (fuel : nat) (w : window) : option nat :=
  if start w <? end_ w then
    match fuel with
    | O => None
    | S fuel' => loop compare xs x key fuel' (loop_body compare xs x key w)
    end
  else Some (start w).

(** The search gets [xs.length] iterations: enough for the loop to
    exit ([loop_returns]), and no larger fuel changes the result
    ([loop_fuel]). *)
Definition binarySearchWith (compare : K -> K -> bool) (xs : list T)
    (x : K) (key : T -> K) : option nat :=
  loop compare xs x key (length xs) {| start := 0; end_ := length xs |}.

Context `{JsOrder K}.

Definition lowerBound : list T -> K -> (T -> K) -> option nat :=
  binarySearchWith (fun a b => js_lt a b).

Definition upperBound : list T -> K -> (T -> K) -> option nat :=
  binarySearchWith (fun a b => js_le a b).

(** [xs] is sorted ascending by [key]: no element is followed by one
    of a smaller key. *)
Fixpoint sorted_by (key : T -> K) (xs : list T) : bool :=
  match xs with
  | a :: (b :: _) as rest => js_le (key a) (key b) && sorted_by key rest
  | _ => true
  end.
End BinarySearch.

(** [r] is the smallest index below [n] at which [P] holds, and [n]
    when there is none. *)
Definition smallest_index (P : nat -> bool) (n r : nat) : Prop :=
  r <= n /\ (forall i, i < r -> P i = false) /\ (r < n -> P r = true).

(** ** [range] *)

(** [const [start, end, step = 1] = args.length > 1 ? args : [0, args[0]]].
    [args[0]] of an empty [args] would be [undefined] (here the
    inhabitant); [range] has thrown before it gets there. *)
Definition bounds (args : list Z) : Z * Z * Z :=
  match args with
  | start :: end_ :: rest => (start, end_, default 1%Z (head rest))
  | _ => (0%Z, args !!! 0, 1%Z)
  end.

(** [range] is a generator function: the call builds the generator and
    runs nothing of the body, which starts at the first [next()].
[[
export function* range(...args) {
  assert(args.length)
  const [start, end, step = 1] = args.length > 1 ? args : [0, args[0]]
  const sign = assert(Math.sign(end - start))
  for (let i = start; (end - i) * sign > 0; i += step) {
    yield i
  }
}
]] *)
Inductive range_gen : Set :=
| Created (args : list Z)
| Suspended (i end_ step sign : Z)
| Completed.

Definition range (args : list Z) : range_gen := Created args.

(** The loop test at [i], then [yield i] or the end of the body. *)
Definition range_test (end_ step sign i : Z)
    : result (option Z * range_gen) :=
  if ((end_ - i) * sign >? 0)%Z
  then Ok (Some i, Suspended i end_ step sign)
  else Ok (None, Completed).

(** [g.next()]: the yielded value, or [None] when the generator is done.
    [i + step] is the exact sum, which is the sum of the code whenever
    binary64 holds it ([round_to_double] leaves it alone); the signs of
    [end - start] and [end - i] are exact in binary64 in any case. *)
Definition next (g : range_gen) : result (option Z * range_gen) :=
  match g with
  | Created args =>
      _ ← assert (length args);
      let '(start, end_, step) := bounds args in
      sign ← assert (Z.sgn (end_ - start));
      range_test end_ step sign start
  | Suspended i end_ step sign => range_test end_ step sign (i + step)%Z
  | Completed => Ok (None, Completed)
  end.

(** [[...g]] for at most [fuel] calls of [next()]; [None] when the
    generator has not finished by then. *)
Fixpoint drain (fuel : nat) (g : range_gen) : result (option (list Z)) :=
  match fuel with
  | O => Ok None
  | S fuel' =>
      r ← next g;
      match r with
      | (Some i, g') => l ← drain fuel' g'; Ok (cons i <$> (l : option (list Z)))
      | (None, _) => Ok (Some [])
      end
  end.

(** The copy of [range] in [src/util.js], which has no [sign]:
[[
export function* range(...args) {
  assert(args.length)
  const [start, end, step = 1] = args.length > 1 ? args : [0, args[0]]
  for (let i = start; i < end; i += step) {
    yield i
  }
}
]] *)
Module UtilJs.

Inductive range_gen : Set :=
| Created (args : list Z)
| Suspended (i end_ step : Z)
| Completed.

Definition range (args : list Z) : range_gen := Created args.

Definition range_test (end_ step i : Z) : result (option Z * range_gen) :=
  if (i <? end_)%Z
  then Ok (Some i, Suspended i end_ step)
  else Ok (None, Completed).

Definition next (g : range_gen) : result (option Z * range_gen) :=
  match g with
  | Created args =>
      _ ← assert (length args);
      let '(start, end_, step) := bounds args in
      range_test end_ step start
  | Suspended i end_ step => range_test end_ step (i + step)%Z
  | Completed => Ok (None, Completed)
  end.

(** [[...g]] within [fuel] calls of [next()], as [drain] above. *)
Fixpoint drain (fuel : nat) (g : range_gen) : result (option (list Z)) :=
  match fuel with
  | O => Ok None
  | S fuel' =>
      r ← next g;
      match r with
      | (Some i, g') => l ← drain fuel' g'; Ok (cons i <$> (l : option (list Z)))
      | (None, _) => Ok (Some [])
      end
  end.

End UtilJs.

(** ** [switchOnKey] *)

(** [[
export function switchOnKey(object, handlers, defaultHandler) {
  let foundKey
  let handler = defaultHandler
  for (const [key, h] of Object.entries(handlers)) {
    if (Object.hasOwnProperty.call(object, key)) {
      assert(!foundKey)
      foundKey = key
      handler = h
    }
  }
  return assert(handler)(object)
}
]] *)
Section SwitchOnKey.
Context {R : Type}.

(** What a slot of [handlers], or [defaultHandler], may hold: a
    function, which may itself throw, or a value that is not one. *)
Inductive callee : Type :=
| Fn (h : object -> result R)
| NotFn (v : value).

(** A function is an object, hence truthy. *)
#[export] Instance callee_to_boolean : ToBoolean callee :=
  fun c => match c with Fn _ => true | NotFn v => to_boolean v end.

(** [c(o)] *)
Definition call (c : callee) (o : object) : result R :=
  match c with
  | Fn h => h o
  | NotFn _ => Throw TypeError
  end.

(** [Object.hasOwnProperty.call(o, key)] *)
Definition hasOwnProperty (o : object) (key : string) : bool :=
  bool_decide (is_Some (o !! key)).

(** The [for] loop over [entries], the rest of [Object.entries(handlers)],
    from the current [foundKey] and [handler]. *)
Fixpoint switchOnKey_loop (o : object) (entries : list (string * callee))
    (foundKey : option string) (handler : callee)
    : result (option string * callee) :=
  match entries with
  | [] => Ok (foundKey, handler)
  | (key, h) :: rest =>
      if hasOwnProperty o key then
        _ ← assert (negb (to_boolean foundKey));
        switchOnKey_loop o rest (Some key) h
      else switchOnKey_loop o rest foundKey handler
  end.

(** [handlers] is given by [Object.entries(handlers)]: its keys, each
    once, in the order the object defines, with their slots. An absent
    [defaultHandler] is [NotFn VUndefined]. *)
Definition switchOnKey (o : object) (handlers : list (string * callee))
    (defaultHandler : callee) : result R :=
  '(_, handler) ← switchOnKey_loop o handlers None defaultHandler;
  h ← assert handler;
  call h o.

(** The keys of [handlers] that are own properties of [o], in order. *)
Definition matching (o : object) (handlers : list (string * callee))
    : list (string * callee) :=
  filter (fun e => hasOwnProperty o e.1 = true) handlers.

End SwitchOnKey.
Arguments callee R : clear implicits.

(** The objects of the examples: [{a: 1}], [{c: 1}], [{a: 1, b: 1}], and
    [{'': 1, a: 1}], whose first own key is the empty string. *)
Definition only_a : object := {[ "a" := VNumber 1 ]}.
Definition only_c : object := {[ "c" := VNumber 1 ]}.
Definition a_and_b : object := <[ "a" := VNumber 1 ]> {[ "b" := VNumber 1 ]}.
Definition empty_and_a : object :=
  <[EmptyString := VNumber 1]> {[ "a" := VNumber 1 ]}.

(** ** [getLast] *)

(** [[
export function getLast(xs, default_) {
  return xs.length ? xs[xs.length - 1] : default_
}
]] *)
Definition getLast {T} `{Inhabited T} (xs : list T) (default_ : T) : T :=
  if to_boolean (length xs) then xs !!! (length xs - 1) else default_.

(** ** [maxBy] *)

(** [key(x) > key(max)] is [js_gt]; [xs[0]] is read after the assertion
    has made sure it is there.
[[
export function maxBy(xs, key) {
  assert(xs.length)
  let max = xs[0]
  for (const x of xs) {
    if (key(x) > key(max)) {
      max = x
    }
  }
  return max
}
]] *)
Definition maxBy {T K} `{Inhabited T} `{JsOrder K} (xs : list T)
    (key : T -> K) : result T :=
  _ ← assert (length xs);
  Ok (foldl (fun max x => if js_gt (key x) (key max) then x else max)
        (xs !!! 0) xs).

(** ** [makeObject] *)

(** The prototype of the object under construction: [Object.prototype],
    which [{}] starts with and where [__proto__] is an accessor; [null];
    or an object given as a value. Of such an object the own properties
    are known; its own prototype is taken to be [Object.prototype], as
    that of every object literal is. *)
Inductive prototype : Type :=
| ObjectPrototype
| NullPrototype
| ValuePrototype (props : gmap string value).

(** The setter of [Object.prototype.__proto__]: an object or [null]
    becomes the prototype, anything else is ignored. *)
Definition object_or_null (v : value) : bool :=
  match v with
  | VObject _ | VNull => true
  | _ => false
  end.

Definition set_prototype (proto : prototype) (v : value) : prototype :=
  match v with
  | VObject props => ValuePrototype props
  | VNull => NullPrototype
  | _ => proto
  end.

(** Whether [obj['__proto__'] = v] ends at that setter: not when the
    object has an own property of the name, nor when its prototype is
    [null], nor when an object that is its prototype has one. *)
Definition reaches_accessor (own : object) (proto : prototype) : bool :=
  match own !! "__proto__" with
  | Some _ => false
  | None =>
      match proto with
      | ObjectPrototype => true
      | NullPrototype => false
      | ValuePrototype props =>
          match props !! "__proto__" with Some _ => false | None => true end
      end
  end.

(** [obj[name] = v], on the own properties and the prototype of [obj].
    Any other name than [__proto__] is found, if at all, as a plain
    property: the assignment sets the own property. *)
Definition set_property (obj : object * prototype) (name : string) (v : value)
    : object * prototype :=
  if decide (name = "__proto__") then
    if reaches_accessor obj.1 obj.2
    then (obj.1, set_prototype obj.2 v)
    else (<[name := v]> obj.1, obj.2)
  else (<[name := v]> obj.1, obj.2).

(** The loop, from [{}]. *)
Definition makeObject_loop (entries : list (string * value))
    : object * prototype :=
  foldl (fun obj '(name, v) => set_property obj name v)
    (∅, ObjectPrototype) entries.

(** The own properties of the object [makeObject] returns.
[[
export function makeObject(entries) {
  const object = {}
  for (const [name, value] of entries) {
    object[name] = value
  }
  return object
}
]] *)
Definition makeObject (entries : list (string * value)) : object :=
  (makeObject_loop entries).1.

(** ** The generators over iterables *)

(** An iterable is the finite list of what it yields, and so is the
    generator made from it; [undefined] in a row of [zip] is [None]. *)
Module Generators.
Section Generators.
Context {T : Type}.

(** The loop of [enumerate] from the counter [i]. *)
Fixpoint enumerate_from (i : nat) (it : list T) : list (nat * T) :=
  match it with
  | [] => []
  | x :: rest => (i, x) :: enumerate_from (i + 1) rest
  end.

(** [[
export function* enumerate(it) {
  let i = 0
  for (const x of it) {
    yield [i++, x]
  }
}
]] *)
Definition enumerate (it : list T) : list (nat * T) := enumerate_from 0 it.

(** [[
export function* map(it, f) {
  for (const [i, x] of enumerate(it)) {
    yield f(x, i)
  }
}
]] *)
Definition map {U : Type} (it : list T) (f : T -> nat -> U) : list U :=
  (fun '(i, x) => f x i) <$> enumerate it.

(** [it.next()] of a list iterator: the value, [None] when done, and
    the iterator after the call. *)
Definition iterator_next (it : list T) : option T * list T :=
  (head it, tail it).

(** [item.done] *)
Definition done (item : option T * list T) : bool :=
  match item.1 with None => true | Some _ => false end.

(** One round of the [for (;;)] of [zip]: [None] at the [return], the
    row it yields otherwise; and the iterators after the round. *)
Definition zip_round (iterators : list (list T))
    : option (list (option T)) * list (list T) :=
  let items := iterator_next <$> iterators in
  if forallb done items
  then (None, snd <$> items)
  else (Some (fst <$> items), snd <$> items).

Fixpoint zip_loop (fuel : nat) (iterators : list (list T))
    : option (list (list (option T))) :=
  match fuel with
  | O => None
  | S fuel' =>
      match zip_round iterators with
      | (None, _) => Some []
      | (Some row, iterators') => cons row <$> zip_loop fuel' iterators'
      end
  end.

(** The rows of [[...zip(...iterables)]], within [fuel] rounds of the
    loop; [None] when it has not returned by then.
[[
export function* zip(...iterables) {
  const iterators = iterables.map(it => it[Symbol.iterator]())
  for (;;) {
    const items = iterators.map(it => it.next())
    if (items.every(({done}) => done)) {
      return
    }
    yield items.map(({value}) => value)
  }
}
]] *)
Definition zip (fuel : nat) (iterables : list (list T))
    : option (list (list (option T))) :=
  zip_loop fuel iterables.

End Generators.
End Generators.

(** ** The hexadecimal text of [sha256] *)

(** [i.toString(16)] for a byte [i]: one digit below 16, two from 16
    on, in lower case. *)
Definition hex_digit (d : N) : Ascii.ascii :=
  if (d <? 10)%N then Ascii.ascii_of_N (48 + d) else Ascii.ascii_of_N (87 + d).

Definition toString16 (i : N) : string :=
  if (i <? 16)%N
  then String (hex_digit i) EmptyString
  else String (hex_digit (i / 16)) (String (hex_digit (i mod 16)) EmptyString).

(** The last line of [sha256], on the bytes of the digest:
[[
  return [...new Uint8Array(digest)].map(i => i.toString(16)).join('')
]] *)
Definition hex_of_digest (digest : list Byte.byte) : string :=
  foldr String.append EmptyString
    ((fun i => toString16 (Byte.to_N i)) <$> digest).

(** * Properties *)

(** ** Binary search *)

Section BinarySearchFacts.
Context {T K : Type} `{Inhabited T}.
Implicit Types (compare : K -> K -> bool) (xs : list T) (x : K)
  (key : T -> K) (w : window).

Lemma midpoint_in_range w :
  start w < end_ w ->
  start w <= (start w + end_ w) / 2 < end_ w.
Proof.
  intros Hlt. split.
  - apply Nat.div_le_lower_bound; lia.
  - apply Nat.Div0.div_lt_upper_bound; lia.
Qed.

Lemma loop_body_shrinks compare xs x key w :
  start w < end_ w -> width (loop_body compare xs x key w) < width w.
Proof.
  intros Hlt. pose proof (midpoint_in_range w Hlt) as [Hlo Hhi].
  unfold loop_body, width.
  destruct (compare _ x); cbn [start end_]; lia.
Qed.

Lemma loop_body_inside compare xs x key w :
  start w < end_ w ->
  start w <= start (loop_body compare xs x key w) /\
  start (loop_body compare xs x key w) <= end_ (loop_body compare xs x key w) /\
  end_ (loop_body compare xs x key w) <= end_ w.
Proof.
  intros Hlt. pose proof (midpoint_in_range w Hlt) as [Hlo Hhi].
  unfold loop_body. destruct (compare _ x); cbn [start end_]; lia.
Qed.

Lemma loop_exit compare xs x key fuel w :
  end_ w <= start w -> loop compare xs x key fuel w = Some (start w).
Proof.
  intros Hge. destruct fuel; simpl;
    destruct (Nat.ltb_spec (start w) (end_ w)); auto; lia.
Qed.

Lemma loop_unfold compare xs x key fuel w :
  start w < end_ w ->
  loop compare xs x key (S fuel) w =
  loop compare xs x key fuel (loop_body compare xs x key w).
Proof.
  intros Hlt. simpl.
  destruct (Nat.ltb_spec (start w) (end_ w)); auto; lia.
Qed.

(** Fuel that covers the width of the window is enough, and the result
    lies in the window. *)
Lemma loop_returns compare xs x key fuel :
  forall w, start w <= end_ w -> width w <= fuel ->
  exists r, loop compare xs x key fuel w = Some r /\
            start w <= r <= end_ w.
Proof.
  induction fuel as [|fuel IH]; intros w Hle Hfuel.
  - exists (start w). split; [|lia].
    apply loop_exit. unfold width in Hfuel. lia.
  - destruct (Nat.lt_ge_cases (start w) (end_ w)) as [Hlt|Hge].
    + pose proof (loop_body_shrinks compare xs x key w Hlt) as Hshrink.
      pose proof (loop_body_inside compare xs x key w Hlt) as (Hs & Hm & He).
      destruct (IH (loop_body compare xs x key w)) as (r & Hr & Hin); [lia..|].
      exists r. rewrite loop_unfold by exact Hlt. split; [exact Hr|lia].
    + exists (start w). split; [|lia]. apply loop_exit, Hge.
Qed.

(** More fuel than the width of the window changes nothing. *)
Lemma loop_fuel compare xs x key fuel fuel' w :
  start w <= end_ w -> width w <= fuel -> width w <= fuel' ->
  loop compare xs x key fuel w = loop compare xs x key fuel' w.
Proof.
  revert fuel' w. induction fuel as [|fuel IH]; intros fuel' w Hle Hf Hf'.
  - rewrite !loop_exit; auto; unfold width in Hf; lia.
  - destruct (Nat.lt_ge_cases (start w) (end_ w)) as [Hlt|Hge].
    + destruct fuel' as [|fuel']; [unfold width in Hf'; lia|].
      pose proof (loop_body_shrinks compare xs x key w Hlt) as Hshrink.
      pose proof (loop_body_inside compare xs x key w Hlt) as (Hs & Hm & He).
      rewrite !loop_unfold by exact Hlt. apply IH; lia.
    + rewrite !loop_exit; auto.
Qed.

(** [lowerBound([], x) == 0] and [upperBound([], x) == 0]. *)
Example binarySearchWith_empty compare x key :
  binarySearchWith compare [] x key = Some 0.
Proof. reflexivity. Qed.

(** The loop invariant. When the test [compare (key xs[i]) x] is
    downward closed on the indices of [xs], the loop keeps it true
    below [start] and false from [end] on. *)
Lemma loop_partition compare xs x key
    (Hmono : forall i j, i <= j -> j < length xs ->
       compare (key (xs !!! j)) x = true ->
       compare (key (xs !!! i)) x = true) fuel :
  forall w r,
  start w <= end_ w -> end_ w <= length xs ->
  (forall i, i < start w -> compare (key (xs !!! i)) x = true) ->
  (forall i, end_ w <= i -> i < length xs ->
     compare (key (xs !!! i)) x = false) ->
  loop compare xs x key fuel w = Some r ->
  (forall i, i < r -> compare (key (xs !!! i)) x = true) /\
  (forall i, r <= i -> i < length xs -> compare (key (xs !!! i)) x = false).
Proof.
  induction fuel as [|fuel IH]; intros w r Hle Hn Hbelow Habove Hr.
  - simpl in Hr. destruct (Nat.ltb_spec (start w) (end_ w)); [discriminate|].
    injection Hr as <-. split; [exact Hbelow|].
    intros i Hi. apply Habove. lia.
  - destruct (Nat.lt_ge_cases (start w) (end_ w)) as [Hlt|Hge].
    + rewrite loop_unfold in Hr by exact Hlt.
      pose proof (midpoint_in_range w Hlt) as [Hlo Hhi].
      apply (IH (loop_body compare xs x key w) r); try exact Hr;
        unfold loop_body;
        destruct (compare (key (xs !!! ((start w + end_ w) / 2))) x) eqn:Hc;
        cbn [start end_]; try lia.
      * intros i Hi. apply (Hmono i ((start w + end_ w) / 2)); [lia|lia|exact Hc].
      * exact Hbelow.
      * exact Habove.
      * intros i Hi Hin.
        destruct (compare (key (xs !!! i)) x) eqn:Hci; [|reflexivity].
        rewrite (Hmono _ i Hi Hin Hci) in Hc. discriminate.
    + rewrite loop_exit in Hr by exact Hge. injection Hr as <-.
      split; [exact Hbelow|]. intros i Hi. apply Habove. lia.
Qed.

(** The search returns, and its result splits the indices of [xs]. *)
Lemma binarySearchWith_partition compare xs x key :
  (forall i j, i <= j -> j < length xs ->
     compare (key (xs !!! j)) x = true ->
     compare (key (xs !!! i)) x = true) ->
  exists r, binarySearchWith compare xs x key = Some r /\
    r <= length xs /\
    (forall i, i < r -> compare (key (xs !!! i)) x = true) /\
    (forall i, r <= i -> i < length xs ->
       compare (key (xs !!! i)) x = false).
Proof.
  intros Hmono. unfold binarySearchWith.
  destruct (loop_returns compare xs x key (length xs)
              {| start := 0; end_ := length xs |}) as (r & Hr & Hin);
    [cbn; lia..|].
  cbn [start end_] in Hin. exists r. split; [exact Hr|]. split; [lia|].
  apply (loop_partition compare xs x key Hmono (length xs)
           {| start := 0; end_ := length xs |} r);
    cbn [start end_]; try lia; try exact Hr.
Qed.

End BinarySearchFacts.

(** ** The order of keys *)

Section OrderFacts.
Context {K : Type} `{JsOrder K}.
Implicit Types a b c : K.

Lemma js_lt_le_trans a b c :
  js_lt a b = true -> js_le b c = true -> js_lt a c = true.
Proof.
  unfold js_le. intros Hab Hbc. apply negb_true_iff in Hbc.
  destruct (js_lt b c) eqn:Hlt.
  - exact (js_lt_trans a b c Hab Hlt).
  - rewrite <- (js_lt_connex b c Hlt Hbc). exact Hab.
Qed.

Lemma js_le_lt_trans a b c :
  js_le a b = true -> js_lt b c = true -> js_lt a c = true.
Proof.
  unfold js_le. intros Hab Hbc. apply negb_true_iff in Hab.
  destruct (js_lt a b) eqn:Hlt.
  - exact (js_lt_trans a b c Hlt Hbc).
  - rewrite (js_lt_connex a b Hlt Hab). exact Hbc.
Qed.

Lemma js_le_trans a b c :
  js_le a b = true -> js_le b c = true -> js_le a c = true.
Proof.
  intros Hab Hbc. unfold js_le. apply negb_true_iff.
  destruct (js_lt c a) eqn:Hca; [|reflexivity].
  pose proof (js_lt_le_trans c a b Hca Hab) as Hcb.
  unfold js_le in Hbc. rewrite Hcb in Hbc. discriminate.
Qed.

Lemma js_le_refl a : js_le a a = true.
Proof. unfold js_le. by rewrite js_lt_irrefl. Qed.

Lemma js_lt_asym a b : js_lt a b = true -> js_lt b a = false.
Proof.
  intros Hab. destruct (js_lt b a) eqn:Hba; [|reflexivity].
  pose proof (js_lt_trans a b a Hab Hba) as Haa.
  rewrite js_lt_irrefl in Haa. discriminate.
Qed.

End OrderFacts.

(** ** Sorted sequences *)

Section SortedFacts.
Context {T K : Type} `{Inhabited T} `{JsOrder K}.
Implicit Types (xs : list T) (x : K) (key : T -> K).

Lemma sorted_by_tail key a xs :
  sorted_by key (a :: xs) = true -> sorted_by key xs = true.
Proof.
  destruct xs as [|b xs]; [reflexivity|].
  cbn [sorted_by]. intros Hs. apply andb_true_iff in Hs. tauto.
Qed.

Lemma sorted_by_head key xs :
  forall a, sorted_by key (a :: xs) = true ->
  forall j, j < length xs -> js_le (key a) (key (xs !!! j)) = true.
Proof.
  induction xs as [|b xs IH]; intros a Hs j Hj; [simpl in Hj; lia|].
  cbn [sorted_by] in Hs. apply andb_true_iff in Hs as [Hab Hs].
  destruct j as [|j]; [exact Hab|].
  apply (js_le_trans _ (key b)); [exact Hab|].
  apply IH; [exact Hs|simpl in Hj; lia].
Qed.

(** Sorted, read by indices. *)
Lemma sorted_by_lookup key xs :
  sorted_by key xs = true ->
  forall i j, i <= j -> j < length xs ->
  js_le (key (xs !!! i)) (key (xs !!! j)) = true.
Proof.
  induction xs as [|a xs IH]; intros Hs i j Hij Hj; [simpl in Hj; lia|].
  destruct i as [|i], j as [|j]; try lia.
  - apply js_le_refl.
  - apply (sorted_by_head key xs a Hs). simpl in Hj. lia.
  - apply IH; [exact (sorted_by_tail key a xs Hs)|lia|simpl in Hj; lia].
Qed.

(** On a sorted sequence the results of both searches split the indices. *)
Lemma lowerBound_partition xs x key :
  sorted_by key xs = true ->
  exists r, lowerBound xs x key = Some r /\ r <= length xs /\
    (forall i, i < r -> js_lt (key (xs !!! i)) x = true) /\
    (forall i, r <= i -> i < length xs -> js_lt (key (xs !!! i)) x = false).
Proof.
  intros Hs. apply (binarySearchWith_partition (fun a b => js_lt a b)).
  intros i j Hij Hj Hlt.
  exact (js_le_lt_trans _ _ _ (sorted_by_lookup key xs Hs i j Hij Hj) Hlt).
Qed.

Lemma upperBound_partition xs x key :
  sorted_by key xs = true ->
  exists r, upperBound xs x key = Some r /\ r <= length xs /\
    (forall i, i < r -> js_le (key (xs !!! i)) x = true) /\
    (forall i, r <= i -> i < length xs -> js_le (key (xs !!! i)) x = false).
Proof.
  intros Hs. apply (binarySearchWith_partition (fun a b => js_le a b)).
  intros i j Hij Hj Hle.
  exact (js_le_trans _ _ _ (sorted_by_lookup key xs Hs i j Hij Hj) Hle).
Qed.

Lemma lowerBound_smallest xs x key :
  sorted_by key xs = true ->
  exists r, lowerBound xs x key = Some r /\
    smallest_index (fun i => js_ge (key (xs !!! i)) x) (length xs) r.
Proof.
  intros Hs.
  destruct (lowerBound_partition xs x key Hs) as (r & Hr & Hn & Hlo & Hhi).
  exists r. split; [exact Hr|]. unfold smallest_index, js_ge.
  split; [exact Hn|]. split.
  - intros i Hi. by rewrite (Hlo i Hi).
  - intros Hlt. by rewrite (Hhi r (Nat.le_refl r) Hlt).
Qed.

Lemma upperBound_smallest xs x key :
  sorted_by key xs = true ->
  exists r, upperBound xs x key = Some r /\
    smallest_index (fun i => js_gt (key (xs !!! i)) x) (length xs) r.
Proof.
  intros Hs.
  destruct (upperBound_partition xs x key Hs) as (r & Hr & Hn & Hlo & Hhi).
  exists r. split; [exact Hr|]. unfold smallest_index, js_gt.
  split; [exact Hn|]. split.
  - intros i Hi. apply negb_true_iff. exact (Hlo i Hi).
  - intros Hlt. apply negb_false_iff. exact (Hhi r (Nat.le_refl r) Hlt).
Qed.

End SortedFacts.

(** C2: on every sequence sorted ascending by [key], [lowerBound]
    returns an index of [[0, length xs]], the smallest [i] with
    [key xs[i] >= x], and [length xs] when there is none; and
    [lowerBound([1,3,3,5], 3) == 1], [lowerBound([1,3,3,5], 4) == 3]. *)
Theorem lowerBound_spec :
  (forall (T K : Type) (HT : Inhabited T) (HK : JsOrder K)
          (xs : list T) (x : K) (key : T -> K),
     sorted_by key xs = true ->
     exists r, lowerBound xs x key = Some r /\
       smallest_index (fun i => js_ge (key (xs !!! i)) x) (length xs) r) /\
  lowerBound [1; 3; 3; 5]%Z 3%Z identity = Some 1 /\
  lowerBound [1; 3; 3; 5]%Z 4%Z identity = Some 3.
Proof.
  split; [|split; reflexivity].
  intros T K HT HK xs x key. apply lowerBound_smallest.
Qed.

Lemma lowerBound_spec_witness :
  sorted_by identity [1; 3; 3; 5]%Z = true /\
  exists r, lowerBound [1; 3; 3; 5]%Z 3%Z identity = Some r /\
    smallest_index (fun i => js_ge (identity ([1; 3; 3; 5]%Z !!! i)) 3%Z)
      (length [1; 3; 3; 5]%Z) r.
Proof.
  split; [reflexivity|].
  apply (proj1 lowerBound_spec Z Z _ _ [1; 3; 3; 5]%Z 3%Z identity).
  reflexivity.
Defined.

(** C3: on every sequence sorted ascending by [key], [upperBound]
    returns an index of [[0, length xs]], the smallest [i] with
    [key xs[i] > x], and [length xs] when there is none; and
    [upperBound([1,3,3,5], 3) == 3], [upperBound([1,3,3,5], 4) == 3]. *)
Theorem upperBound_spec :
  (forall (T K : Type) (HT : Inhabited T) (HK : JsOrder K)
          (xs : list T) (x : K) (key : T -> K),
     sorted_by key xs = true ->
     exists r, upperBound xs x key = Some r /\
       smallest_index (fun i => js_gt (key (xs !!! i)) x) (length xs) r) /\
  upperBound [1; 3; 3; 5]%Z 3%Z identity = Some 3 /\
  upperBound [1; 3; 3; 5]%Z 4%Z identity = Some 3.
Proof.
  split; [|split; reflexivity].
  intros T K HT HK xs x key. apply upperBound_smallest.
Qed.

Lemma upperBound_spec_witness :
  sorted_by identity [1; 3; 3; 5]%Z = true /\
  exists r, upperBound [1; 3; 3; 5]%Z 4%Z identity = Some r /\
    smallest_index (fun i => js_gt (identity ([1; 3; 3; 5]%Z !!! i)) 4%Z)
      (length [1; 3; 3; 5]%Z) r.
Proof.
  split; [reflexivity|].
  apply (proj1 upperBound_spec Z Z _ _ [1; 3; 3; 5]%Z 4%Z identity).
  reflexivity.
Defined.

(** C6: on every sequence sorted ascending by [key] both searches
    return, and [lowerBound(xs, x, key) <= upperBound(xs, x, key)]. *)
Theorem lowerBound_le_upperBound {T K : Type} `{Inhabited T} `{JsOrder K}
    (xs : list T) (x : K) (key : T -> K) :
  sorted_by key xs = true ->
  exists l u, lowerBound xs x key = Some l /\
              upperBound xs x key = Some u /\ l <= u.
Proof.
  intros Hs.
  destruct (lowerBound_partition xs x key Hs) as (l & Hl & Hln & Hlo & _).
  destruct (upperBound_partition xs x key Hs) as (u & Hu & Hun & _ & Hhi).
  exists l, u. split; [exact Hl|]. split; [exact Hu|].
  destruct (Nat.le_gt_cases l u) as [Hle|Hgt]; [exact Hle|].
  assert (Hul : u < length xs) by lia.
  specialize (Hlo u Hgt). specialize (Hhi u (Nat.le_refl u) Hul).
  unfold js_le in Hhi. apply negb_false_iff in Hhi.
  rewrite (js_lt_asym _ _ Hlo) in Hhi. discriminate.
Qed.

Lemma lowerBound_le_upperBound_witness :
  sorted_by identity [1; 3; 3; 5]%Z = true /\
  exists l u, lowerBound [1; 3; 3; 5]%Z 3%Z identity = Some l /\
              upperBound [1; 3; 3; 5]%Z 3%Z identity = Some u /\ l <= u.
Proof.
  split; [reflexivity|].
  apply (lowerBound_le_upperBound [1; 3; 3; 5]%Z 3%Z identity).
  reflexivity.
Defined.

(** C7: for every sorted sequence [xs] and every [x] present in it, the
    indices from [lowerBound(xs, x)] up to, and without,
    [upperBound(xs, x)] hold [x], and no other index of [xs] does. There
    is at least one index in that range. *)
Theorem equal_range {K : Type} `{Inhabited K} `{JsOrder K}
    (xs : list K) (x : K) :
  sorted_by identity xs = true ->
  x ∈ xs ->
  exists l u, lowerBound xs x identity = Some l /\
              upperBound xs x identity = Some u /\
    l < u /\
    (forall i, l <= i < u -> xs !!! i = x) /\
    (forall i, i < length xs -> ~ (l <= i < u) -> xs !!! i <> x).
Proof.
  intros Hs Hin.
  destruct (lowerBound_partition xs x identity Hs)
    as (l & Hl & Hln & Hllo & Hlhi).
  destruct (upperBound_partition xs x identity Hs)
    as (u & Hu & Hun & Hulo & Huhi).
  unfold identity in Hllo, Hlhi, Hulo, Huhi.
  exists l, u. split; [exact Hl|]. split; [exact Hu|].
  split; [|split].
  - apply list_elem_of_lookup in Hin as [j Hj].
    pose proof (lookup_lt_Some _ _ _ Hj) as Hjn.
    apply list_lookup_total_correct in Hj.
    destruct (Nat.le_gt_cases l j) as [Hlj|Hjl].
    + destruct (Nat.le_gt_cases u j) as [Huj|Hju]; [|lia].
      specialize (Huhi j Huj Hjn). rewrite Hj, js_le_refl in Huhi.
      discriminate.
    + specialize (Hllo j Hjl). rewrite Hj, js_lt_irrefl in Hllo.
      discriminate.
  - intros i [Hli Hiu].
    assert (Hi : i < length xs) by lia.
    specialize (Hlhi i Hli Hi). specialize (Hulo i Hiu).
    unfold js_le in Hulo. apply negb_true_iff in Hulo.
    exact (js_lt_connex _ _ Hlhi Hulo).
  - intros i Hi Hout Heq.
    destruct (Nat.le_gt_cases l i) as [Hli|Hil].
    + assert (Hui : u <= i) by lia.
      specialize (Huhi i Hui Hi). rewrite Heq, js_le_refl in Huhi.
      discriminate.
    + specialize (Hllo i Hil). rewrite Heq, js_lt_irrefl in Hllo.
      discriminate.
Qed.

Lemma equal_range_witness :
  sorted_by identity [1; 3; 3; 5]%Z = true /\
  3%Z ∈ [1; 3; 3; 5]%Z /\
  exists l u, lowerBound [1; 3; 3; 5]%Z 3%Z identity = Some l /\
              upperBound [1; 3; 3; 5]%Z 3%Z identity = Some u /\
    l < u /\
    (forall i, l <= i < u -> [1; 3; 3; 5]%Z !!! i = 3%Z) /\
    (forall i, i < length [1; 3; 3; 5]%Z -> ~ (l <= i < u) ->
       [1; 3; 3; 5]%Z !!! i <> 3%Z).
Proof.
  split; [reflexivity|].
  assert (Hin : 3%Z ∈ [1; 3; 3; 5]%Z) by (apply list_elem_of_In; simpl; tauto).
  split; [exact Hin|].
  apply (equal_range [1; 3; 3; 5]%Z 3%Z); [reflexivity|exact Hin].
Defined.

(** C9: for every finite sequence, value, key function and comparison,
    an iteration of the loop strictly shrinks the window
    [[start, end)], so the search returns: after at most [length xs]
    iterations, and with the same result on any larger fuel. This holds
    for [lowerBound] and [upperBound] on sequences sorted or not. *)
Theorem binarySearchWith_terminates {T K : Type} `{Inhabited T} `{JsOrder K}
    (xs : list T) (x : K) (key : T -> K) :
  (forall compare w, start w < end_ w ->
     width (loop_body compare xs x key w) < width w) /\
  (forall compare, exists r,
     binarySearchWith compare xs x key = Some r /\
     forall fuel, length xs <= fuel ->
       loop compare xs x key fuel {| start := 0; end_ := length xs |}
       = Some r) /\
  is_Some (lowerBound xs x key) /\
  is_Some (upperBound xs x key).
Proof.
  assert (Hret : forall compare, exists r,
     binarySearchWith compare xs x key = Some r /\
     forall fuel, length xs <= fuel ->
       loop compare xs x key fuel {| start := 0; end_ := length xs |}
       = Some r).
  { intros compare. unfold binarySearchWith.
    destruct (loop_returns compare xs x key (length xs)
                {| start := 0; end_ := length xs |}) as (r & Hr & _);
      [cbn; lia..|].
    exists r. split; [exact Hr|]. intros fuel Hfuel. rewrite <- Hr.
    apply loop_fuel; cbn; lia. }
  split; [|split; [exact Hret|split]].
  - intros compare w. apply loop_body_shrinks.
  - destruct (Hret (fun a b => js_lt a b)) as (r & Hr & _). by exists r.
  - destruct (Hret (fun a b => js_le a b)) as (r & Hr & _). by exists r.
Qed.

(** ** Numbers *)

(** Below [2 ^ 53] in size an integer is a binary64 number. *)
Lemma round_to_double_small (z : Z) :
  (Z.abs z < 2 ^ 53)%Z -> round_to_double z = z.
Proof.
  intros Hz. unfold round_to_double.
  destruct (Z.ltb_spec (Z.log2 (Z.abs z)) 53) as [Hlog|Hlog]; [reflexivity|].
  destruct (Z.eq_dec (Z.abs z) 0%Z) as [H0|H0].
  - rewrite H0 in Hlog. cbn in Hlog. lia.
  - assert (Hpos : (0 < Z.abs z)%Z) by lia.
    apply (Z.log2_lt_pow2 _ _ Hpos) in Hz. lia.
Qed.

Lemma round_to_double_safe (z : Z) :
  is_safe_integer z -> round_to_double z = z.
Proof.
  unfold is_safe_integer, MAX_SAFE_INTEGER. intros Hz.
  apply round_to_double_small. lia.
Qed.

(** Where the rounding shows: [2 ^ 53 + 1] is no binary64 number, and
    neither is [2 ^ 60 - 1]. *)
Example round_to_double_examples :
  round_to_double (2 ^ 53) = (2 ^ 53)%Z /\
  round_to_double (2 ^ 53 + 1) = (2 ^ 53)%Z /\
  round_to_double (2 ^ 53 + 3) = (2 ^ 53 + 4)%Z /\
  round_to_double (2 ^ 60 - 1) = (2 ^ 60)%Z /\
  round_to_double (- (2 ^ 60 - 1)) = (- 2 ^ 60)%Z.
Proof. repeat split. Qed.

(** ** [mod] *)

Lemma mod_cases (dividend divisor : Z) :
  mod_ dividend divisor =
  if decide (Z.rem dividend divisor <> 0 /\ Z.sgn dividend <> Z.sgn divisor)%Z
  then round_to_double (Z.rem dividend divisor + divisor)
  else Z.rem dividend divisor.
Proof.
  unfold mod_, to_boolean, number_to_boolean.
  destruct (Z.eqb_spec (Z.rem dividend divisor) 0) as [Hr|Hr];
    destruct (Z.eqb_spec (Z.sgn dividend) (Z.sgn divisor)) as [Hs|Hs];
    cbn; case_decide; try reflexivity; tauto.
Qed.

(** What [%] gives: the quotient equation, the bound, and the sign of
    the dividend. *)
Lemma rem_facts (a b : Z) :
  b <> 0%Z ->
  (a = b * (a ÷ b) + Z.rem a b /\ Z.abs (Z.rem a b) < Z.abs b /\
   (0 < a -> 0 <= Z.rem a b) /\ (a < 0 -> Z.rem a b <= 0) /\
   (a = 0 -> Z.rem a b = 0))%Z.
Proof.
  intros Hb.
  pose proof (Z.quot_rem' a b) as Hqr.
  pose proof (Z.rem_bound_abs a b Hb) as Habs.
  pose proof (Z.rem_sign_mul a b Hb) as Hsign.
  repeat split; try assumption; try nia.
  intros ->. apply Z.rem_0_l. exact Hb.
Qed.

(** With a divisor of at most [2 ^ 53] in size the sum is exact, and
    [mod] is the floored modulo, Rocq's [Z.modulo]. *)
Lemma mod_modulo (dividend divisor : Z) :
  divisor <> 0%Z -> (Z.abs divisor <= 2 ^ 53)%Z ->
  mod_ dividend divisor = (dividend `mod` divisor)%Z.
Proof.
  intros Hd Hsize. rewrite mod_cases.
  destruct (rem_facts dividend divisor Hd) as (Hqr & Habs & Hpos & Hneg & Hz).
  case_decide as Hc.
  - rewrite round_to_double_small by lia.
    apply (Z.mod_unique _ _ (dividend ÷ divisor - 1)); lia.
  - apply (Z.mod_unique _ _ (dividend ÷ divisor)); lia.
Qed.

(** Where [mod] and [%] part: a negative dividend and a positive
    divisor. *)
Example mod_and_rem :
  mod_ (-7) 3 = 2%Z /\ Z.rem (-7) 3 = (-1)%Z /\
  mod_ 7 (-3) = (-2)%Z /\ Z.rem 7 (-3) = 1%Z.
Proof. repeat split. Qed.




(** ** [assert] *)

Lemma to_boolean_value_false (v : value) : to_boolean v = false <-> falsy v.
Proof.
  unfold falsy. split.
  - destruct v as [| |[]|n| |[|c s]|props]; cbn; try discriminate; auto 7.
    unfold to_boolean, number_to_boolean.
    destruct (Z.eqb_spec n 0) as [->|Hn]; [auto 7|discriminate].
  - intros [->|[->|[->|[->|[->| ->]]]]]; reflexivity.
Qed.

(** C8: [assert] throws the assertion error exactly when its argument,
    taken as a condition, is false (ToBoolean sends it to [false]), and
    returns the argument itself otherwise. Among the values, the false
    conditions are [undefined], [null], [false], [0], [NaN] and the
    empty string. *)
Theorem assert_spec :
  (forall (A : Type) (HA : ToBoolean A) (v : A),
     (assert v = Throw AssertionFailed <-> to_boolean v = false) /\
     (assert v = Ok v <-> to_boolean v = true)) /\
  (forall v : value, to_boolean v = false <-> falsy v).
Proof.
  split; [|exact to_boolean_value_false].
  intros A HA v. unfold assert.
  destruct (to_boolean v); cbn; split; split; congruence.
Qed.

(** ** [range] *)

(** Building the generator runs nothing; iterating it does. *)
Example range_ascending : drain 10 (range [0; 3]%Z) = Ok (Some [0; 1; 2]%Z).
Proof. reflexivity. Qed.

Example range_descending :
  drain 10 (range [5; 1; -2]%Z) = Ok (Some [5; 3]%Z).
Proof. reflexivity. Qed.

Example range_no_args : next (range []) = Throw AssertionFailed.
Proof. reflexivity. Qed.

(** The calls whose range is degenerate, spelled out: [range(s, s, ...)]
    and [range(0)]. *)
Lemma range_degenerate_calls :
  (forall s rest, next (range (s :: s :: rest)) = Throw AssertionFailed) /\
  next (range [0%Z]) = Throw AssertionFailed.
Proof.
  split; [|reflexivity].
  intros s rest. cbn. unfold assert. cbn.
  rewrite Z.sub_diag. reflexivity.
Qed.

(** The copy of [src/util.js] has no assertion on the sign: a range from
    0 to 0 ends at once, with nothing yielded and nothing thrown. *)
Lemma range_degenerate_util_js :
  bounds [0; 0]%Z = (0, 0, 1)%Z /\
  UtilJs.next (UtilJs.range [0; 0]%Z) = Ok (None, UtilJs.Completed).
Proof. split; reflexivity. Qed.

(** C5, for the [range] that computes [sign]: when [end] equals
    [start], the first [next()] of the generator throws the assertion
    error. *)
Theorem range_degenerate (args : list Z) (start end_ step : Z) :
  bounds args = (start, end_, step) ->
  end_ = start ->
  next (range args) = Throw AssertionFailed.
Proof.
  intros Hb ->. unfold range, next.
  destruct (assert (length args)) as [n|e] eqn:Hlen.
  - cbn. rewrite Hb, Z.sub_diag. reflexivity.
  - unfold assert in Hlen. destruct (negb _); [|discriminate].
    injection Hlen as <-. reflexivity.
Qed.

Lemma range_degenerate_witness :
  bounds [2; 2; 1]%Z = (2, 2, 1)%Z /\ 2%Z = 2%Z /\
  next (range [2; 2; 1]%Z) = Throw AssertionFailed.
Proof.
  split; [reflexivity|]. split; [reflexivity|].
  apply (range_degenerate [2; 2; 1]%Z 2 2 1); reflexivity.
Defined.

(** ** [switchOnKey] *)

Section SwitchOnKeyFacts.
Context {R : Type}.
Implicit Types (o : object) (entries handlers : list (string * callee R))
  (foundKey : option string) (handler defaultHandler c : callee R).

Lemma hasOwnProperty_true o key :
  hasOwnProperty o key = true <-> is_Some (o !! key).
Proof. unfold hasOwnProperty. apply bool_decide_eq_true. Qed.

Lemma hasOwnProperty_false o key :
  hasOwnProperty o key = false <-> o !! key = None.
Proof.
  unfold hasOwnProperty. rewrite bool_decide_eq_false.
  rewrite eq_None_not_Some. tauto.
Qed.

(** Entries whose key [o] does not own leave the loop's state alone. *)
Lemma switchOnKey_loop_no_match o entries foundKey handler :
  (forall key c, (key, c) ∈ entries -> o !! key = None) ->
  switchOnKey_loop o entries foundKey handler = Ok (foundKey, handler).
Proof.
  induction entries as [|[key c] entries IH]; intros Hnone; [reflexivity|].
  cbn [switchOnKey_loop].
  rewrite (proj2 (hasOwnProperty_false o key)).
  - apply IH. intros key' c' Hin. apply (Hnone key' c'). by right.
  - apply (Hnone key c). by left.
Qed.

(** The loop sees the matching entries only. *)
Lemma switchOnKey_loop_matching o entries :
  forall foundKey handler,
  switchOnKey_loop o entries foundKey handler =
  switchOnKey_loop o (matching o entries) foundKey handler.
Proof.
  unfold matching.
  induction entries as [|[key c] entries IH]; intros foundKey handler;
    [reflexivity|].
  destruct (hasOwnProperty o key) eqn:Hown.
  - rewrite filter_cons_True by exact Hown.
    cbn [switchOnKey_loop]. rewrite Hown.
    destruct (assert (negb (to_boolean foundKey))); cbn; [apply IH|reflexivity].
  - rewrite filter_cons_False by (cbn; congruence).
    cbn [switchOnKey_loop]. rewrite Hown. apply IH.
Qed.

Lemma matching_owned o entries key c :
  (key, c) ∈ matching o entries -> hasOwnProperty o key = true.
Proof. unfold matching. intros Hin. by apply list_elem_of_filter in Hin as [? _]. Qed.

(** Exactly one key matches: its slot is called, whatever its key. *)
Lemma switchOnKey_one_match o handlers defaultHandler key h :
  matching o handlers = [(key, Fn h)] ->
  switchOnKey o handlers defaultHandler = h o.
Proof.
  intros Hm. unfold switchOnKey.
  rewrite switchOnKey_loop_matching, Hm. cbn [switchOnKey_loop].
  rewrite (matching_owned o handlers key (Fn h)) by (rewrite Hm; by left).
  reflexivity.
Qed.

(** Two keys or more match and the first of them is not the empty
    string: the assertion in the loop fails. *)
Lemma switchOnKey_many_matches o handlers defaultHandler key1 c1 key2 c2 rest :
  matching o handlers = (key1, c1) :: (key2, c2) :: rest ->
  key1 <> EmptyString ->
  switchOnKey o handlers defaultHandler = Throw AssertionFailed.
Proof.
  intros Hm Hkey. unfold switchOnKey.
  rewrite switchOnKey_loop_matching, Hm. cbn [switchOnKey_loop].
  rewrite (matching_owned o handlers key1 c1) by (rewrite Hm; by left).
  rewrite (matching_owned o handlers key2 c2)
    by (rewrite Hm; right; by left).
  destruct key1 as [|ch key1]; [contradiction|]. reflexivity.
Qed.

(** The examples of the specification: [{a: h1, b: h2}] with default
    [hd], on [{a: 1}], [{c: 1}] and [{a: 1, b: 1}]. *)
Example switchOnKey_examples (h1 h2 hd : object -> result R) :
  let handlers := [("a", Fn h1); ("b", Fn h2)] in
  switchOnKey only_a handlers (Fn hd) = h1 only_a /\
  switchOnKey only_c handlers (Fn hd) = hd only_c /\
  switchOnKey a_and_b handlers (Fn hd) = Throw AssertionFailed /\
  switchOnKey only_c handlers (NotFn VUndefined) = Throw AssertionFailed.
Proof. repeat split. Qed.

End SwitchOnKeyFacts.

(** C1, at the input where the code departs from it: on
    [{'': 1, a: 1}] with the handlers [{'': h1, a: h2}] both keys match,
    and [switchOnKey] returns what [h2] returns instead of throwing the
    assertion error, because [!foundKey] is true of the empty string. *)
Theorem switchOnKey_empty_key {R : Type} (h1 h2 : object -> result R)
    (defaultHandler : callee R) :
  matching empty_and_a [(EmptyString, Fn h1); ("a", Fn h2)]
    = [(EmptyString, Fn h1); ("a", Fn h2)] /\
  switchOnKey empty_and_a [(EmptyString, Fn h1); ("a", Fn h2)] defaultHandler
    = h2 empty_and_a.
Proof. split; reflexivity. Qed.

(** C4: when no key of [handlers] is an own property of the object,
    [switchOnKey] returns what the default handler returns on the
    object, and throws the assertion error when the default handler is
    absent or another falsy value. *)
Theorem switchOnKey_default {R : Type} (o : object)
    (handlers : list (string * callee R)) (defaultHandler : callee R) :
  (forall key c, (key, c) ∈ handlers -> o !! key = None) ->
  (forall hd, defaultHandler = Fn hd ->
     switchOnKey o handlers defaultHandler = hd o) /\
  (to_boolean defaultHandler = false ->
     switchOnKey o handlers defaultHandler = Throw AssertionFailed).
Proof.
  intros Hnone. unfold switchOnKey.
  rewrite (switchOnKey_loop_no_match o handlers None defaultHandler Hnone).
  split.
  - intros hd ->. reflexivity.
  - intros Hfalsy. cbn. unfold assert. rewrite Hfalsy. reflexivity.
Qed.

Lemma switchOnKey_default_witness :
  (forall key c,
     (key, c) ∈ [("a", Fn (fun _ : object => Ok 1%Z));
                 ("b", Fn (fun _ : object => Ok 2%Z))] ->
     only_c !! key = None) /\
  switchOnKey only_c
    [("a", Fn (fun _ : object => Ok 1%Z));
     ("b", Fn (fun _ : object => Ok 2%Z))]
    (Fn (fun _ : object => Ok 0%Z)) = Ok 0%Z /\
  switchOnKey only_c
    [("a", Fn (fun _ : object => Ok 1%Z));
     ("b", Fn (fun _ : object => Ok 2%Z))]
    (NotFn VUndefined) = Throw AssertionFailed.
Proof.
  assert (Hnone : forall key c,
     (key, c) ∈ [("a", Fn (fun _ : object => Ok 1%Z));
                 ("b", Fn (fun _ : object => Ok 2%Z))] ->
     only_c !! key = None).
  { intros key c Hin.
    apply elem_of_cons in Hin as [Heq|Hin]; [by inversion Heq|].
    apply elem_of_cons in Hin as [Heq|Hin]; [by inversion Heq|].
    by apply elem_of_nil in Hin. }
  split; [exact Hnone|]. split.
  - exact (proj1 (switchOnKey_default only_c _ (Fn (fun _ => Ok 0%Z)) Hnone)
             (fun _ => Ok 0%Z) eq_refl).
  - exact (proj2 (switchOnKey_default only_c _ (NotFn VUndefined) Hnone)
             eq_refl).
Defined.

(** * Further properties *)

(** ** Binary search: cost, and the three parts of a sorted sequence *)

Section BinarySearchMore.
Context {T K : Type} `{Inhabited T}.
Implicit Types (compare : K -> K -> bool) (xs : list T) (x : K)
  (key : T -> K) (w : window).

(** An iteration at least halves the window. *)
Lemma loop_body_halves compare xs x key w :
  start w < end_ w -> width (loop_body compare xs x key w) <= width w / 2.
Proof.
  intros Hlt. unfold loop_body, width.
  assert (Hmid : (start w + end_ w) / 2 = start w + (end_ w - start w) / 2).
  { replace (start w + end_ w) with ((end_ w - start w) + start w * 2) by lia.
    rewrite Nat.div_add by lia. lia. }
  rewrite Hmid.
  pose proof (Nat.div_mod_eq (end_ w - start w) 2) as Hdm.
  pose proof (Nat.mod_upper_bound (end_ w - start w) 2) as Hmod.
  destruct (compare _ x); cbn [start end_]; lia.
Qed.

Lemma loop_returns_log compare xs x key fuel :
  forall w, width w < 2 ^ fuel ->
  exists r, loop compare xs x key fuel w = Some r.
Proof.
  induction fuel as [|fuel IH]; intros w Hw.
  - exists (start w). apply loop_exit. unfold width in Hw. cbn in Hw. lia.
  - destruct (Nat.lt_ge_cases (start w) (end_ w)) as [Hlt|Hge].
    + rewrite loop_unfold by exact Hlt. apply IH.
      pose proof (loop_body_halves compare xs x key w Hlt) as Hhalf.
      rewrite Nat.pow_succ_r' in Hw.
      pose proof (Nat.div_mod_eq (width w) 2) as Hdm.
      pose proof (Nat.mod_upper_bound (width w) 2) as Hmod. lia.
    + exists (start w). apply loop_exit, Hge.
Qed.

(** A result does not depend on the fuel left over. *)
Lemma loop_more_fuel compare xs x key fuel :
  forall w r k, loop compare xs x key fuel w = Some r ->
  loop compare xs x key (fuel + k) w = Some r.
Proof.
  induction fuel as [|fuel IH]; intros w r k Hr.
  - simpl in Hr. destruct (Nat.ltb_spec (start w) (end_ w)); [discriminate|].
    rewrite loop_exit by lia. exact Hr.
  - destruct (Nat.lt_ge_cases (start w) (end_ w)) as [Hlt|Hge].
    + rewrite loop_unfold in Hr by exact Hlt.
      change (S fuel + k) with (S (fuel + k)).
      rewrite loop_unfold by exact Hlt. apply IH, Hr.
    + rewrite loop_exit in Hr by exact Hge. rewrite loop_exit by exact Hge.
      exact Hr.
Qed.

End BinarySearchMore.

(** X1: on any sequence, sorted or not, and with any comparison, the
    search returns an index of [[0, length xs]], and the loop has
    exited after [fuel] iterations as soon as [length xs < 2 ^ fuel]. *)
Theorem binarySearchWith_logarithmic {T K : Type} `{Inhabited T}
    (compare : K -> K -> bool) (xs : list T) (x : K) (key : T -> K) :
  exists r, binarySearchWith compare xs x key = Some r /\
    r <= length xs /\
    forall fuel, length xs < 2 ^ fuel ->
      loop compare xs x key fuel {| start := 0; end_ := length xs |} = Some r.
Proof.
  unfold binarySearchWith.
  destruct (loop_returns compare xs x key (length xs)
              {| start := 0; end_ := length xs |}) as (r & Hr & Hin);
    [cbn; lia..|].
  cbn [start end_] in Hin. exists r. split; [exact Hr|]. split; [lia|].
  intros fuel Hfuel.
  destruct (loop_returns_log compare xs x key fuel
              {| start := 0; end_ := length xs |}) as (r' & Hr');
    [unfold width; cbn; lia|].
  pose proof (loop_more_fuel compare xs x key _ _ _ fuel Hr) as H1.
  pose proof (loop_more_fuel compare xs x key _ _ _ (length xs) Hr') as H2.
  rewrite (Nat.add_comm fuel) in H2. congruence.
Qed.

Section SortedMore.
Context {T K : Type} `{Inhabited T} `{JsOrder K}.
Implicit Types (xs : list T) (x y : K) (key : T -> K).

(** Both searches at once: the keys below [x], the keys equal to [x],
    the keys above [x]. *)
Lemma three_parts xs x key :
  sorted_by key xs = true ->
  exists l u, lowerBound xs x key = Some l /\ upperBound xs x key = Some u /\
    l <= u /\ u <= length xs /\
    (forall i, i < l -> js_lt (key (xs !!! i)) x = true) /\
    (forall i, l <= i -> i < u -> key (xs !!! i) = x) /\
    (forall i, u <= i -> i < length xs -> js_lt x (key (xs !!! i)) = true).
Proof.
  intros Hs.
  destruct (lowerBound_partition xs x key Hs) as (l & Hl & Hln & Hllo & Hlhi).
  destruct (upperBound_partition xs x key Hs) as (u & Hu & Hun & Hulo & Huhi).
  assert (Hgt : forall i, u <= i -> i < length xs ->
                js_lt x (key (xs !!! i)) = true).
  { intros i Hi Hin. specialize (Huhi i Hi Hin).
    unfold js_le in Huhi. by apply negb_false_iff in Huhi. }
  assert (Hlu : l <= u).
  { destruct (Nat.le_gt_cases l u) as [Hle|Hlt]; [exact Hle|].
    assert (Hul : u < length xs) by lia.
    specialize (Hllo u Hlt). specialize (Hgt u (Nat.le_refl u) Hul).
    rewrite (js_lt_asym _ _ Hllo) in Hgt. discriminate. }
  exists l, u. repeat split; try assumption.
  intros i Hli Hiu.
  assert (Hi : i < length xs) by lia.
  specialize (Hlhi i Hli Hi). specialize (Hulo i Hiu).
  unfold js_le in Hulo. apply negb_true_iff in Hulo.
  exact (js_lt_connex _ _ Hlhi Hulo).
Qed.

(** Which indices hold the key [x]. *)
Lemma three_parts_equal xs x key l u :
  (forall i, i < l -> js_lt (key (xs !!! i)) x = true) ->
  (forall i, l <= i -> i < u -> key (xs !!! i) = x) ->
  (forall i, u <= i -> i < length xs -> js_lt x (key (xs !!! i)) = true) ->
  forall i, i < length xs -> (key (xs !!! i) = x <-> l <= i /\ i < u).
Proof.
  intros Hlo Hmid Hhi i Hi. split.
  - intros Heq.
    destruct (Nat.le_gt_cases l i) as [Hli|Hil].
    + destruct (Nat.le_gt_cases u i) as [Hui|Hiu]; [|lia].
      specialize (Hhi i Hui Hi). rewrite Heq, js_lt_irrefl in Hhi.
      discriminate.
    + specialize (Hlo i Hil). rewrite Heq, js_lt_irrefl in Hlo. discriminate.
  - intros [Hli Hiu]. exact (Hmid i Hli Hiu).
Qed.

(** Counting by indices: when a decidable [P] holds of exactly the
    elements at the indices of [[l, u)], it holds of [u - l] elements. *)
Lemma count_segment (P : T -> Prop) `{forall a, Decision (P a)} xs :
  forall l u, l <= u -> u <= length xs ->
  (forall i, i < length xs -> (P (xs !!! i) <-> l <= i /\ i < u)) ->
  length (filter P xs) = u - l.
Proof.
  induction xs as [|a xs IH]; intros l u Hlu Hun Hiff; [cbn in *; lia|].
  assert (Htail : length (filter P xs) = (u - 1) - (l - 1)).
  { apply IH; [lia|cbn in Hun; lia|].
    intros i Hi. specialize (Hiff (S i)). cbn in Hiff.
    rewrite Hiff by lia. lia. }
  specialize (Hiff 0). cbn in Hiff.
  destruct (decide (P a)) as [Ha|Ha].
  - rewrite filter_cons_True by exact Ha. cbn.
    apply Hiff in Ha; [|lia]. lia.
  - rewrite filter_cons_False by exact Ha.
    rewrite Htail. destruct (decide (l = 0)) as [->|Hl]; [|lia].
    destruct (decide (u = 0)) as [->|Hu]; [lia|].
    exfalso. apply Ha, Hiff; lia.
Qed.

End SortedMore.

Section SortedInsert.
Context {T K : Type} `{Inhabited T} `{JsOrder K}.
Implicit Types (xs : list T) (x y : K) (key : T -> K) (e : T).

Lemma js_lt_le a b : js_lt a b = true -> js_le a b = true.
Proof. intros Hab. unfold js_le. by rewrite (js_lt_asym a b Hab). Qed.

Lemma sorted_by_cons2 key a b xs :
  sorted_by key (a :: b :: xs) =
  js_le (key a) (key b) && sorted_by key (b :: xs).
Proof. reflexivity. Qed.

Lemma sorted_by_app_inv key xs ys :
  sorted_by key (xs ++ ys) = true ->
  sorted_by key xs = true /\ sorted_by key ys = true.
Proof.
  induction xs as [|a xs IH]; intros Hs; [by split|].
  pose proof (sorted_by_tail key a (xs ++ ys) Hs) as Htail.
  destruct (IH Htail) as [Hxs Hys]. split; [|exact Hys].
  destruct xs as [|b xs]; [reflexivity|].
  cbn [app] in Hs. rewrite sorted_by_cons2 in Hs.
  apply andb_true_iff in Hs as [Hab _].
  by rewrite sorted_by_cons2, Hab, Hxs.
Qed.

Lemma sorted_by_insert key xs ys e :
  Forall (fun a => js_le (key a) (key e) = true) xs ->
  Forall (fun b => js_le (key e) (key b) = true) ys ->
  sorted_by key xs = true -> sorted_by key ys = true ->
  sorted_by key (xs ++ e :: ys) = true.
Proof.
  intros Hxs Hys Hsx Hsy.
  induction xs as [|a xs IH].
  - destruct ys as [|b ys]; [reflexivity|].
    apply Forall_cons in Hys as [Hb _].
    by rewrite app_nil_l, sorted_by_cons2, Hb, Hsy.
  - apply Forall_cons in Hxs as [Ha Hxs].
    specialize (IH Hxs (sorted_by_tail key a xs Hsx)).
    destruct xs as [|a' xs].
    + rewrite app_nil_l in IH.
      change ([a] ++ e :: ys) with (a :: e :: ys).
      by rewrite sorted_by_cons2, Ha, IH.
    + rewrite sorted_by_cons2 in Hsx.
      apply andb_true_iff in Hsx as [Haa _].
      cbn [app] in IH |- *.
      by rewrite sorted_by_cons2, Haa, IH.
Qed.

End SortedInsert.

(** X2: on a sequence sorted by [key],
    [lowerBound(xs, x, key) <= upperBound(xs, x, key)]; the first is
    below the second exactly when some element has the key [x], and
    the two are equal exactly when none has. *)
Theorem lowerBound_lt_upperBound_iff {T K : Type} `{Inhabited T} `{JsOrder K}
    (xs : list T) (x : K) (key : T -> K) :
  sorted_by key xs = true ->
  exists l u, lowerBound xs x key = Some l /\ upperBound xs x key = Some u /\
    l <= u /\
    (l < u <-> exists e, e ∈ xs /\ key e = x) /\
    (l = u <-> ~ exists e, e ∈ xs /\ key e = x).
Proof.
  intros Hs.
  destruct (three_parts xs x key Hs)
    as (l & u & Hl & Hu & Hlu & Hun & Hlo & Hmid & Hhi).
  exists l, u. split; [exact Hl|]. split; [exact Hu|]. split; [exact Hlu|].
  assert (Hiff : l < u <-> exists e, e ∈ xs /\ key e = x).
  { split.
    - intros Hlt. exists (xs !!! l). split.
      + apply list_elem_of_lookup. exists l.
        apply list_lookup_lookup_total_lt. lia.
      + apply Hmid; lia.
    - intros (e & Hin & Heq).
      apply list_elem_of_lookup in Hin as [j Hj].
      pose proof (lookup_lt_Some _ _ _ Hj) as Hjn.
      apply list_lookup_total_correct in Hj. subst e.
      apply (three_parts_equal xs x key l u Hlo Hmid Hhi j Hjn) in Heq. lia. }
  split; [exact Hiff|].
  split.
  - intros Heq Hex. apply Hiff in Hex. lia.
  - intros Hnone. destruct (Nat.eq_dec l u) as [Heq|Hne]; [exact Heq|].
    exfalso. apply Hnone, Hiff. lia.
Qed.

Lemma lowerBound_lt_upperBound_iff_witness :
  sorted_by identity [1; 3; 3; 5]%Z = true /\
  exists l u, lowerBound [1; 3; 3; 5]%Z 4%Z identity = Some l /\
              upperBound [1; 3; 3; 5]%Z 4%Z identity = Some u /\
    l <= u /\
    (l < u <-> exists e, e ∈ [1; 3; 3; 5]%Z /\ identity e = 4%Z) /\
    (l = u <-> ~ exists e, e ∈ [1; 3; 3; 5]%Z /\ identity e = 4%Z).
Proof.
  split; [reflexivity|].
  apply (lowerBound_lt_upperBound_iff [1; 3; 3; 5]%Z 4%Z identity).
  reflexivity.
Defined.

(** X3: on a sequence sorted by [key],
    [lowerBound(xs, x, key) <= upperBound(xs, x, key)] and the
    difference of the two is the number of elements whose key is [x]:
    [lowerBound] plus that number is [upperBound]. *)
Theorem upperBound_minus_lowerBound {T K : Type} `{Inhabited T} `{JsOrder K}
    `{EqDecision K} (xs : list T) (x : K) (key : T -> K) :
  sorted_by key xs = true ->
  exists l u, lowerBound xs x key = Some l /\ upperBound xs x key = Some u /\
    l <= u /\
    l + length (filter (fun e => key e = x) xs) = u.
Proof.
  intros Hs.
  destruct (three_parts xs x key Hs)
    as (l & u & Hl & Hu & Hlu & Hun & Hlo & Hmid & Hhi).
  exists l, u. split; [exact Hl|]. split; [exact Hu|]. split; [exact Hlu|].
  rewrite (count_segment (fun e => key e = x) xs l u Hlu Hun
             (three_parts_equal xs x key l u Hlo Hmid Hhi)).
  lia.
Qed.

Lemma upperBound_minus_lowerBound_witness :
  sorted_by identity [1; 3; 3; 5]%Z = true /\
  exists l u, lowerBound [1; 3; 3; 5]%Z 3%Z identity = Some l /\
              upperBound [1; 3; 3; 5]%Z 3%Z identity = Some u /\
    l <= u /\
    l + length (filter (fun e => identity e = 3%Z) [1; 3; 3; 5]%Z) = u.
Proof.
  split; [reflexivity|].
  apply (upperBound_minus_lowerBound [1; 3; 3; 5]%Z 3%Z identity).
  reflexivity.
Defined.

(** X4: on a sequence sorted by [key], an element of key [x] put at
    [lowerBound(xs, x, key)], at [upperBound(xs, x, key)] or anywhere
    between the two leaves the sequence sorted. *)
Theorem insert_keeps_sorted {T K : Type} `{Inhabited T} `{JsOrder K}
    (xs : list T) (x : K) (key : T -> K) (e : T) :
  sorted_by key xs = true ->
  key e = x ->
  exists l u, lowerBound xs x key = Some l /\ upperBound xs x key = Some u /\
    forall p, l <= p -> p <= u ->
      sorted_by key (take p xs ++ e :: drop p xs) = true.
Proof.
  intros Hs Hkey.
  destruct (three_parts xs x key Hs)
    as (l & u & Hl & Hu & Hlu & Hun & Hlo & Hmid & Hhi).
  exists l, u. split; [exact Hl|]. split; [exact Hu|].
  intros p Hlp Hpu.
  destruct (sorted_by_app_inv key (take p xs) (drop p xs)) as [Hst Hsd];
    [by rewrite take_drop|].
  apply sorted_by_insert; try assumption.
  - apply Forall_lookup. intros i a Hia.
    apply lookup_take_Some in Hia as [Hia Hip].
    pose proof (lookup_lt_Some _ _ _ Hia) as Hin.
    apply list_lookup_total_correct in Hia. subst a. rewrite Hkey.
    destruct (Nat.le_gt_cases l i) as [Hli|Hil].
    + rewrite (Hmid i Hli) by lia. apply js_le_refl.
    + apply js_lt_le, Hlo, Hil.
  - apply Forall_lookup. intros i b Hib.
    rewrite lookup_drop in Hib.
    pose proof (lookup_lt_Some _ _ _ Hib) as Hin.
    apply list_lookup_total_correct in Hib. subst b. rewrite Hkey.
    destruct (Nat.le_gt_cases u (p + i)) as [Hui|Hiu].
    + apply js_lt_le, Hhi; [exact Hui|exact Hin].
    + rewrite (Hmid (p + i)) by lia. apply js_le_refl.
Qed.

Lemma insert_keeps_sorted_witness :
  sorted_by identity [1; 3; 3; 5]%Z = true /\ identity 4%Z = 4%Z /\
  exists l u, lowerBound [1; 3; 3; 5]%Z 4%Z identity = Some l /\
              upperBound [1; 3; 3; 5]%Z 4%Z identity = Some u /\
    forall p, l <= p -> p <= u ->
      sorted_by identity (take p [1; 3; 3; 5]%Z ++ 4%Z :: drop p [1; 3; 3; 5]%Z)
      = true.
Proof.
  split; [reflexivity|]. split; [reflexivity|].
  apply (insert_keeps_sorted [1; 3; 3; 5]%Z 4%Z identity 4%Z); reflexivity.
Defined.

(** X5: on a sequence sorted by [key] both searches grow with the
    target: for [x <= y], [lowerBound(xs, x, key) <= lowerBound(xs, y, key)]
    and [upperBound(xs, x, key) <= upperBound(xs, y, key)]. *)
Theorem bounds_monotone {T K : Type} `{Inhabited T} `{JsOrder K}
    (xs : list T) (x y : K) (key : T -> K) :
  sorted_by key xs = true ->
  js_le x y = true ->
  exists lx ly ux uy,
    lowerBound xs x key = Some lx /\ lowerBound xs y key = Some ly /\
    upperBound xs x key = Some ux /\ upperBound xs y key = Some uy /\
    lx <= ly /\ ux <= uy.
Proof.
  intros Hs Hxy.
  destruct (lowerBound_partition xs x key Hs) as (lx & Hlx & Hlxn & Hlxlo & _).
  destruct (lowerBound_partition xs y key Hs) as (ly & Hly & Hlyn & _ & Hlyhi).
  destruct (upperBound_partition xs x key Hs) as (ux & Hux & Huxn & Huxlo & _).
  destruct (upperBound_partition xs y key Hs) as (uy & Huy & Huyn & _ & Huyhi).
  exists lx, ly, ux, uy. repeat (split; [assumption|]). split.
  - destruct (Nat.le_gt_cases lx ly) as [Hle|Hgt]; [exact Hle|].
    assert (Hin : ly < length xs) by lia.
    specialize (Hlxlo ly Hgt). specialize (Hlyhi ly (Nat.le_refl ly) Hin).
    rewrite (js_lt_le_trans _ _ _ Hlxlo Hxy) in Hlyhi. discriminate.
  - destruct (Nat.le_gt_cases ux uy) as [Hle|Hgt]; [exact Hle|].
    assert (Hin : uy < length xs) by lia.
    specialize (Huxlo uy Hgt). specialize (Huyhi uy (Nat.le_refl uy) Hin).
    rewrite (js_le_trans _ _ _ Huxlo Hxy) in Huyhi. discriminate.
Qed.

Lemma bounds_monotone_witness :
  sorted_by identity [1; 3; 3; 5]%Z = true /\ js_le 3%Z 4%Z = true /\
  exists lx ly ux uy,
    lowerBound [1; 3; 3; 5]%Z 3%Z identity = Some lx /\
    lowerBound [1; 3; 3; 5]%Z 4%Z identity = Some ly /\
    upperBound [1; 3; 3; 5]%Z 3%Z identity = Some ux /\
    upperBound [1; 3; 3; 5]%Z 4%Z identity = Some uy /\
    lx <= ly /\ ux <= uy.
Proof.
  split; [reflexivity|]. split; [reflexivity|].
  apply (bounds_monotone [1; 3; 3; 5]%Z 3%Z 4%Z identity); reflexivity.
Defined.

(** ** [range]: what it yields, and when it does not stop *)

Section RangeFacts.
Implicit Types (i v e s sg : Z) (fuel n : nat).

Lemma range_test_live e s sg v :
  (0 < (e - v) * sg)%Z ->
  range_test e s sg v = Ok (Some v, Suspended v e s sg).
Proof.
  intros Hlive. unfold range_test.
  destruct (Z.gtb_spec ((e - v) * sg) 0); [reflexivity|lia].
Qed.

Lemma range_test_over e s sg v :
  ((e - v) * sg <= 0)%Z -> range_test e s sg v = Ok (None, Completed).
Proof.
  intros Hover. unfold range_test.
  destruct (Z.gtb_spec ((e - v) * sg) 0); [lia|reflexivity].
Qed.

(** The generator suspended just before the candidate [v]. *)
Lemma drain_suspended fuel v e s sg :
  drain (S fuel) (Suspended (v - s) e s sg) =
  r ← range_test e s sg v;
  match r with
  | (Some i, g') => l ← drain fuel g'; Ok (cons i <$> (l : option (list Z)))
  | (None, _) => Ok (Some [])
  end.
Proof. cbn [drain next]. by rewrite Z.sub_add. Qed.

(** [n] candidates from [v] on pass the test: they are yielded and the
    generator completes. *)
Lemma drain_finite e s sg n :
  (0 < s * sg)%Z ->
  forall v fuel,
  ((Z.of_nat n - 1) * (s * sg) < (e - v) * sg <= Z.of_nat n * (s * sg))%Z ->
  n < fuel ->
  drain fuel (Suspended (v - s) e s sg) =
  Ok (Some ((fun k => v + Z.of_nat k * s)%Z <$> seq 0 n)).
Proof.
  intros Hdir. induction n as [|n IH]; intros v fuel Hn Hfuel;
    (destruct fuel as [|fuel]; [lia|]); rewrite drain_suspended.
  - rewrite range_test_over by lia. reflexivity.
  - rewrite range_test_live by nia. cbn [mbind result_bind].
    replace v with ((v + s) - s)%Z at 1 by lia.
    rewrite (IH (v + s)%Z fuel) by (try nia; lia).
    cbn [mbind result_bind fmap option_fmap option_map]. do 2 f_equal.
    cbn [seq fmap list_fmap]. f_equal; [lia|].
    rewrite <- fmap_S_seq, <- list_fmap_compose.
    apply list_fmap_ext. intros _ k _. cbn. lia.
Qed.

(** The step does not lead towards [e]: every candidate passes the
    test, and the generator never completes. *)
Lemma drain_endless e s sg :
  (s * sg <= 0)%Z ->
  forall fuel v, (0 < (e - v) * sg)%Z ->
  drain fuel (Suspended (v - s) e s sg) = Ok None.
Proof.
  intros Hdir. induction fuel as [|fuel IH]; intros v Hlive; [reflexivity|].
  rewrite drain_suspended, range_test_live by exact Hlive.
  cbn [mbind result_bind].
  replace v with ((v + s) - s)%Z at 1 by lia.
  rewrite (IH (v + s)%Z) by nia. reflexivity.
Qed.

(** The first [next()] of a range that is not degenerate. *)
Lemma drain_created args start e s fuel :
  args <> [] -> bounds args = (start, e, s) -> e <> start ->
  drain fuel (range args) =
  drain fuel (Suspended (start - s) e s (Z.sgn (e - start))).
Proof.
  intros Hargs0 Hb Hne. destruct fuel as [|fuel]; [reflexivity|].
  rewrite drain_suspended. unfold range. cbn [drain next].
  assert (Hargs : assert (length args) = Ok (length args)).
  { destruct args as [|a args]; [contradiction|reflexivity]. }
  rewrite Hargs. cbn [mbind result_bind]. rewrite Hb.
  assert (Hsign : assert (Z.sgn (e - start)) = Ok (Z.sgn (e - start))).
  { unfold assert, to_boolean, number_to_boolean.
    destruct (Z.eqb_spec (Z.sgn (e - start)) 0) as [Hz|Hz]; [|reflexivity].
    apply Z.sgn_null_iff in Hz. lia. }
  rewrite Hsign. reflexivity.
Qed.

End RangeFacts.

(** X6: on safe integers, with [end + step] safe as well, when [step]
    points from [start] towards [end], the generator yields [start],
    [start + step], ... as long as [end] is not reached or passed,
    [ceil(|end - start| / |step|)] values in all, and then completes.
    Every sum [i + step] the loop makes is a binary64 number, so the
    exact sums of [next] are those of the code. *)
Theorem range_yields (args : list Z) (start end_ step : Z) :
  args <> [] ->
  bounds args = (start, end_, step) ->
  (0 < step * Z.sgn (end_ - start))%Z ->
  is_safe_integer start ->
  is_safe_integer end_ ->
  is_safe_integer step ->
  is_safe_integer (end_ + step) ->
  forall fuel,
  Z.to_nat ((Z.abs (end_ - start) + Z.abs step - 1) `div` Z.abs step) < fuel ->
  drain fuel (range args) =
  Ok (Some ((fun k => start + Z.of_nat k * step)%Z <$>
            seq 0 (Z.to_nat ((Z.abs (end_ - start) + Z.abs step - 1)
                             `div` Z.abs step)))) /\
  Forall (fun i => round_to_double (i + step) = (i + step)%Z)
    ((fun k => start + Z.of_nat k * step)%Z <$>
     seq 0 (Z.to_nat ((Z.abs (end_ - start) + Z.abs step - 1)
                      `div` Z.abs step))).
Proof.
  intros Hargs Hb Hdir Hstart Hend _ Hlast fuel Hfuel.
  assert (Hne : end_ <> start) by lia.
  set (n := Z.to_nat ((Z.abs (end_ - start) + Z.abs step - 1)
                      `div` Z.abs step)) in *.
  assert (Hcount :
    ((Z.of_nat n - 1) * (step * Z.sgn (end_ - start))
     < (end_ - start) * Z.sgn (end_ - start)
     <= Z.of_nat n * (step * Z.sgn (end_ - start)))%Z).
  { subst n.
    set (D := Z.abs (end_ - start)) in *. set (S := Z.abs step) in *.
    assert (HD : ((end_ - start) * Z.sgn (end_ - start) = D)%Z).
    { subst D.
      destruct (Z.sgn_spec (end_ - start)) as [[? ->]|[[? ->]|[? ->]]]; lia. }
    assert (HS : (step * Z.sgn (end_ - start) = S)%Z).
    { subst S.
      destruct (Z.sgn_spec (end_ - start)) as [[? Hs]|[[? Hs]|[? Hs]]];
        rewrite Hs in Hdir |- *; lia. }
    rewrite HD, HS.
    assert (HSpos : (0 < S)%Z) by lia.
    pose proof (Z.div_mod (D + S - 1) S ltac:(lia)) as Hdm.
    pose proof (Z.mod_pos_bound (D + S - 1) S HSpos) as Hmod.
    assert (Hq : (0 <= (D + S - 1) `div` S)%Z) by (apply Z.div_pos; lia).
    rewrite Z2Nat.id by exact Hq. nia. }
  split.
  - rewrite (drain_created args start end_ step fuel Hargs Hb Hne).
    apply drain_finite; [exact Hdir|exact Hcount|exact Hfuel].
  - apply Forall_fmap, Forall_seq. intros k Hk. cbn.
    apply round_to_double_safe.
    unfold is_safe_integer, MAX_SAFE_INTEGER in *.
    destruct (Z.sgn_spec (end_ - start)) as [[? Hs]|[[? Hs]|[? Hs]]];
      rewrite Hs in Hdir, Hcount; nia.
Qed.

Lemma range_yields_witness :
  [5; 1; -2]%Z <> [] /\ bounds [5; 1; -2]%Z = (5, 1, -2)%Z /\
  (0 < -2 * Z.sgn (1 - 5))%Z /\
  is_safe_integer 5 /\ is_safe_integer 1 /\ is_safe_integer (-2) /\
  is_safe_integer (1 + -2) /\
  Z.to_nat ((Z.abs (1 - 5) + Z.abs (-2) - 1) `div` Z.abs (-2)) < 3 /\
  drain 3 (range [5; 1; -2]%Z) =
  Ok (Some ((fun k => 5 + Z.of_nat k * -2)%Z <$>
            seq 0 (Z.to_nat ((Z.abs (1 - 5) + Z.abs (-2) - 1)
                             `div` Z.abs (-2))))) /\
  Forall (fun i => round_to_double (i + -2) = (i + -2)%Z)
    ((fun k => 5 + Z.of_nat k * -2)%Z <$>
     seq 0 (Z.to_nat ((Z.abs (1 - 5) + Z.abs (-2) - 1) `div` Z.abs (-2)))).
Proof.
  assert (H5 : is_safe_integer 5) by (vm_compute; discriminate).
  assert (H1 : is_safe_integer 1) by (vm_compute; discriminate).
  assert (H2 : is_safe_integer (-2)) by (vm_compute; discriminate).
  assert (H12 : is_safe_integer (1 + -2)) by (vm_compute; discriminate).
  split; [discriminate|]. split; [reflexivity|]. split; [reflexivity|].
  split; [exact H5|]. split; [exact H1|]. split; [exact H2|].
  split; [exact H12|]. split; [vm_compute; lia|].
  apply (range_yields [5; 1; -2]%Z 5 1 (-2));
    [discriminate|reflexivity|reflexivity|exact H5|exact H1|exact H2|exact H12
    |vm_compute; lia].
Defined.

(** X7: when [end] differs from [start] and [step] is zero or points
    away from [end], the generator never completes and never throws:
    however many values are taken, it has more. *)
Theorem range_endless (args : list Z) (start end_ step : Z) :
  args <> [] ->
  bounds args = (start, end_, step) ->
  end_ <> start ->
  (step * Z.sgn (end_ - start) <= 0)%Z ->
  forall fuel, drain fuel (range args) = Ok None.
Proof.
  intros Hargs Hb Hne Hdir fuel.
  rewrite (drain_created args start end_ step fuel Hargs Hb Hne).
  apply drain_endless; [exact Hdir|].
  destruct (Z.sgn_spec (end_ - start)) as [[? ->]|[[? ->]|[? ->]]]; lia.
Qed.

Lemma range_endless_witness :
  [5; 0]%Z <> [] /\ bounds [5; 0]%Z = (5, 0, 1)%Z /\ 0%Z <> 5%Z /\
  (1 * Z.sgn (0 - 5) <= 0)%Z /\
  forall fuel, drain fuel (range [5; 0]%Z) = Ok None.
Proof.
  split; [discriminate|]. split; [reflexivity|]. split; [discriminate|].
  split; [lia|].
  apply (range_endless [5; 0]%Z 5 0 1);
    [discriminate|reflexivity|discriminate|lia].
Defined.

(** X8: [range(n)] with a positive safe integer [n] yields
    [0, 1, ..., n - 1] and completes, every sum [i + 1] on the way
    being a binary64 number; with a negative [n] it counts up from 0
    and never completes. *)
Theorem range_one_argument (n : Z) :
  ((0 < n)%Z -> is_safe_integer n -> forall fuel, Z.to_nat n < fuel ->
     drain fuel (range [n]) = Ok (Some (seqZ 0 n)) /\
     Forall (fun i => round_to_double (i + 1) = (i + 1)%Z) (seqZ 0 n)) /\
  ((n < 0)%Z -> forall fuel, drain fuel (range [n]) = Ok None).
Proof.
  split.
  - intros Hn Hsafe fuel Hfuel. split.
    + rewrite (drain_created [n] 0 n 1 fuel)
        by (try discriminate; try reflexivity; lia).
      replace (Z.sgn (n - 0)) with 1%Z by lia.
      rewrite (drain_finite n 1 1 (Z.to_nat n)) by lia.
      unfold seqZ. do 2 f_equal. apply list_fmap_ext. intros _ k _. lia.
    + apply Forall_seqZ. intros i Hi. apply round_to_double_safe.
      unfold is_safe_integer, MAX_SAFE_INTEGER in *. lia.
  - intros Hn fuel.
    rewrite (drain_created [n] 0 n 1 fuel)
      by (try discriminate; try reflexivity; lia).
    replace (Z.sgn (n - 0)) with (-1)%Z by lia.
    apply drain_endless; lia.
Qed.

Lemma range_one_argument_witness :
  (0 < 3)%Z /\ is_safe_integer 3 /\ Z.to_nat 3 < 4 /\
  drain 4 (range [3%Z]) = Ok (Some (seqZ 0 3)) /\
  Forall (fun i => round_to_double (i + 1) = (i + 1)%Z) (seqZ 0 3) /\
  (-3 < 0)%Z /\ forall fuel, drain fuel (range [(-3)%Z]) = Ok None.
Proof.
  assert (H3 : is_safe_integer 3) by (vm_compute; discriminate).
  split; [lia|]. split; [exact H3|]. split; [vm_compute; lia|].
  destruct (proj1 (range_one_argument 3) ltac:(lia) H3 4 ltac:(vm_compute; lia))
    as [Hdrain Hexact].
  split; [exact Hdrain|]. split; [exact Hexact|]. split; [lia|].
  apply (proj2 (range_one_argument (-3))). lia.
Defined.

(** ** The two copies of [range] *)

Lemma utiljs_drain_suspended fuel i e s :
  UtilJs.drain fuel (UtilJs.Suspended i e s) = drain fuel (Suspended i e s 1).
Proof.
  revert i. induction fuel as [|fuel IH]; intros i; [reflexivity|].
  cbn [UtilJs.drain drain UtilJs.next next].
  unfold UtilJs.range_test, range_test.
  replace ((e - (i + s)) * 1 >? 0)%Z with (i + s <? e)%Z.
  - destruct (i + s <? e)%Z; [|reflexivity].
    cbn [mbind result_bind]. by rewrite IH.
  - destruct (Z.ltb_spec (i + s) e), (Z.gtb_spec ((e - (i + s)) * 1) 0);
      try reflexivity; lia.
Qed.

(** X9: on a range with [start < end] the copy of [src/util.js] and the
    copy with [sign] yield the same values and complete, or fail to
    complete, together, whatever the step. *)
Theorem range_copies_agree (args : list Z) (start end_ step : Z) :
  bounds args = (start, end_, step) ->
  (start < end_)%Z ->
  forall fuel, UtilJs.drain fuel (UtilJs.range args) = drain fuel (range args).
Proof.
  intros Hb Hlt [|fuel]; [reflexivity|].
  unfold UtilJs.range, range. cbn [UtilJs.drain drain UtilJs.next next].
  destruct (assert (length args)) as [len|err]; [|reflexivity].
  cbn [mbind result_bind]. rewrite Hb.
  replace (Z.sgn (end_ - start)) with 1%Z by lia.
  change (assert 1%Z) with (Ok 1%Z). cbn [mbind result_bind].
  unfold UtilJs.range_test, range_test.
  replace ((end_ - start) * 1 >? 0)%Z with true
    by (symmetry; apply Z.gtb_lt; lia).
  replace (start <? end_)%Z with true by (symmetry; apply Z.ltb_lt; lia).
  cbn [mbind result_bind]. by rewrite utiljs_drain_suspended.
Qed.

Lemma range_copies_agree_witness :
  bounds [1; 7; 2]%Z = (1, 7, 2)%Z /\ (1 < 7)%Z /\
  forall fuel,
    UtilJs.drain fuel (UtilJs.range [1; 7; 2]%Z) = drain fuel (range [1; 7; 2]%Z).
Proof.
  split; [reflexivity|]. split; [lia|].
  apply (range_copies_agree [1; 7; 2]%Z 1 7 2); [reflexivity|lia].
Defined.

(** X10: on a range with [end <= start] the copy of [src/util.js]
    completes at once, with nothing yielded and nothing thrown; on
    [end < start] the copy with [sign] yields [start] first. *)
Theorem range_copies_differ (args : list Z) (start end_ step : Z) :
  args <> [] ->
  bounds args = (start, end_, step) ->
  (end_ <= start)%Z ->
  UtilJs.next (UtilJs.range args) = Ok (None, UtilJs.Completed) /\
  ((end_ < start)%Z ->
   next (range args) = Ok (Some start, Suspended start end_ step (-1))).
Proof.
  intros Hargs Hb Hle.
  assert (Hlen : assert (length args) = Ok (length args)).
  { destruct args as [|a args]; [contradiction|reflexivity]. }
  unfold UtilJs.range, range. cbn [UtilJs.next next].
  rewrite Hlen. cbn [mbind result_bind]. rewrite Hb. split.
  - unfold UtilJs.range_test.
    destruct (Z.ltb_spec start end_); [lia|reflexivity].
  - intros Hlt. replace (Z.sgn (end_ - start)) with (-1)%Z by lia.
    change (assert (-1)%Z) with (Ok (-1)%Z). cbn [mbind result_bind].
    apply range_test_live. lia.
Qed.

Lemma range_copies_differ_witness :
  [5; 1]%Z <> [] /\ bounds [5; 1]%Z = (5, 1, 1)%Z /\ (1 <= 5)%Z /\
  UtilJs.next (UtilJs.range [5; 1]%Z) = Ok (None, UtilJs.Completed) /\
  ((1 < 5)%Z ->
   next (range [5; 1]%Z) = Ok (Some 5%Z, Suspended 5 1 1 (-1))).
Proof.
  split; [discriminate|]. split; [reflexivity|]. split; [lia|].
  apply (range_copies_differ [5; 1]%Z 5 1 1); [discriminate|reflexivity|lia].
Defined.


(** ** [switchOnKey]: one match, several, and the default *)

Section SwitchOnKeyMore.
Context {R : Type}.
Implicit Types (o : object) (entries handlers : list (string * callee R))
  (foundKey : option string) (handler defaultHandler c : callee R).

(** The loop at an entry whose key [o] owns. *)
Lemma switchOnKey_loop_owned o key c entries foundKey handler :
  hasOwnProperty o key = true ->
  switchOnKey_loop o ((key, c) :: entries) foundKey handler =
  _ ← assert (negb (to_boolean foundKey));
  switchOnKey_loop o entries (Some key) c.
Proof. intros Hown. cbn [switchOnKey_loop]. by rewrite Hown. Qed.

(** The loop over the matching entries, at the first of them. *)
Lemma switchOnKey_loop_first o handlers key c rest defaultHandler :
  matching o handlers = (key, c) :: rest ->
  switchOnKey_loop o handlers None defaultHandler =
  switchOnKey_loop o rest (Some key) c.
Proof.
  intros Hm. rewrite switchOnKey_loop_matching, Hm.
  rewrite switchOnKey_loop_owned
    by (apply (matching_owned o handlers key c); rewrite Hm; by left).
  reflexivity.
Qed.

(** Once a key that is not empty is found, one more match throws. *)
Lemma switchOnKey_loop_second o handlers key c key' c' rest rest' :
  matching o handlers = rest' ++ (key', c') :: rest ->
  key <> EmptyString ->
  switchOnKey_loop o ((key', c') :: rest) (Some key) c = Throw AssertionFailed.
Proof.
  intros Hm Hkey.
  rewrite switchOnKey_loop_owned.
  - destruct key; [contradiction|reflexivity].
  - apply (matching_owned o handlers key' c'). rewrite Hm.
    apply elem_of_app. right. by left.
Qed.

Lemma matching_NoDup o handlers :
  NoDup (handlers.*1) -> NoDup ((matching o handlers).*1).
Proof.
  intros Hnd. apply (sublist_NoDup _ (handlers.*1)); [exact Hnd|].
  apply fmap_sublist. unfold matching. apply sublist_filter.
Qed.

End SwitchOnKeyMore.

(** X11: when exactly one key of [handlers] is an own property of the
    object, whichever key it is and whatever the default handler,
    [switchOnKey] returns what the function in that slot returns on the
    object. A slot that holds no function makes it throw: the assertion
    error for a falsy slot, [TypeError] for a truthy one. *)
Theorem switchOnKey_exactly_one {R : Type} (o : object)
    (handlers : list (string * callee R)) (defaultHandler : callee R)
    (key : string) (c : callee R) :
  matching o handlers = [(key, c)] ->
  switchOnKey o handlers defaultHandler =
  match c with
  | Fn h => h o
  | NotFn v => if to_boolean v then Throw TypeError else Throw AssertionFailed
  end.
Proof.
  intros Hm. unfold switchOnKey.
  rewrite (switchOnKey_loop_first o handlers key c [] defaultHandler Hm).
  cbn [switchOnKey_loop mbind result_bind].
  destruct c as [h|v]; [reflexivity|].
  unfold assert. cbn [to_boolean callee_to_boolean].
  change (callee_to_boolean (NotFn v)) with (to_boolean v).
  by destruct (to_boolean v).
Qed.

Lemma switchOnKey_exactly_one_witness :
  matching only_a [("a", Fn (fun _ : object => Ok 1%Z));
                   ("b", Fn (fun _ : object => Ok 2%Z))]
    = [("a", Fn (fun _ : object => Ok 1%Z))] /\
  switchOnKey only_a [("a", Fn (fun _ : object => Ok 1%Z));
                      ("b", Fn (fun _ : object => Ok 2%Z))]
    (NotFn VUndefined) = Ok 1%Z.
Proof.
  assert (Hm : matching only_a [("a", Fn (fun _ : object => Ok 1%Z));
                                ("b", Fn (fun _ : object => Ok 2%Z))]
               = [("a", Fn (fun _ : object => Ok 1%Z))])
    by (vm_compute; reflexivity).
  split; [exact Hm|].
  exact (switchOnKey_exactly_one only_a
           [("a", Fn (fun _ : object => Ok 1%Z));
            ("b", Fn (fun _ : object => Ok 2%Z))]
           (NotFn VUndefined) "a" (Fn (fun _ => Ok 1%Z)) Hm).
Defined.

(** X12: when two or more keys of [handlers] are own properties of the
    object, [switchOnKey] throws the assertion error, whatever the
    slots and the default handler, provided the first matching key is
    not the empty string, or three keys or more match. *)
Theorem switchOnKey_ambiguous {R : Type} (o : object)
    (handlers : list (string * callee R)) (defaultHandler : callee R)
    (key1 key2 : string) (c1 c2 : callee R) (rest : list (string * callee R)) :
  NoDup (handlers.*1) ->
  matching o handlers = (key1, c1) :: (key2, c2) :: rest ->
  key1 <> EmptyString \/ rest <> [] ->
  switchOnKey o handlers defaultHandler = Throw AssertionFailed.
Proof.
  intros Hnd Hm Hcase. unfold switchOnKey.
  rewrite (switchOnKey_loop_first o handlers key1 c1 _ defaultHandler Hm).
  destruct (decide (key1 = EmptyString)) as [->|Hkey1].
  - destruct Hcase as [Hne|Hrest]; [contradiction|].
    destruct rest as [|[key3 c3] rest]; [contradiction|].
    rewrite switchOnKey_loop_owned
      by (apply (matching_owned o handlers key2 c2); rewrite Hm;
          right; by left).
    cbn [to_boolean option_to_boolean string_to_boolean negb assert
         mbind result_bind].
    change (assert true) with (Ok true). cbn [mbind result_bind].
    rewrite (switchOnKey_loop_second o handlers key2 c2 key3 c3 rest
               [(EmptyString, c1); (key2, c2)] Hm); [reflexivity|].
    apply matching_NoDup with (o := o) in Hnd. rewrite Hm in Hnd.
    cbn in Hnd. apply NoDup_cons in Hnd as [Hnotin _].
    intros ->. apply Hnotin. by left.
  - by rewrite (switchOnKey_loop_second o handlers key1 c1 key2 c2 rest
                  [(key1, c1)] Hm Hkey1).
Qed.

Lemma switchOnKey_ambiguous_witness :
  NoDup ([("a", Fn (fun _ : object => Ok 1%Z));
          ("b", Fn (fun _ : object => Ok 2%Z))].*1) /\
  matching a_and_b [("a", Fn (fun _ : object => Ok 1%Z));
                    ("b", Fn (fun _ : object => Ok 2%Z))]
    = [("a", Fn (fun _ : object => Ok 1%Z));
       ("b", Fn (fun _ : object => Ok 2%Z))] /\
  ("a" <> EmptyString \/ @nil (string * callee Z) <> []) /\
  switchOnKey a_and_b [("a", Fn (fun _ : object => Ok 1%Z));
                       ("b", Fn (fun _ : object => Ok 2%Z))]
    (Fn (fun _ : object => Ok 0%Z)) = Throw AssertionFailed.
Proof.
  assert (Hnd : NoDup ([("a", Fn (fun _ : object => Ok 1%Z));
                        ("b", Fn (fun _ : object => Ok 2%Z))].*1)).
  { cbn. apply NoDup_cons. split; [|apply NoDup_singleton].
    intros Hin. apply list_elem_of_singleton in Hin. discriminate. }
  assert (Hm : matching a_and_b [("a", Fn (fun _ : object => Ok 1%Z));
                                 ("b", Fn (fun _ : object => Ok 2%Z))]
               = [("a", Fn (fun _ : object => Ok 1%Z));
                  ("b", Fn (fun _ : object => Ok 2%Z))])
    by (vm_compute; reflexivity).
  assert (Hcase : "a" <> EmptyString \/ @nil (string * callee Z) <> [])
    by (left; discriminate).
  split; [exact Hnd|]. split; [exact Hm|]. split; [exact Hcase|].
  exact (switchOnKey_ambiguous a_and_b
           [("a", Fn (fun _ : object => Ok 1%Z));
            ("b", Fn (fun _ : object => Ok 2%Z))]
           (Fn (fun _ => Ok 0%Z)) "a" "b"
           (Fn (fun _ => Ok 1%Z)) (Fn (fun _ => Ok 2%Z)) [] Hnd Hm Hcase).
Defined.

(** X13: for every object and every [handlers], when exactly two keys
    match and the first of them is the empty string, no error is
    thrown for the ambiguity: the slot of the second key is used as if
    it were the only match. *)
Theorem switchOnKey_empty_key_first {R : Type} (o : object)
    (handlers : list (string * callee R)) (defaultHandler : callee R)
    (key2 : string) (c1 : callee R) (h2 : object -> result R) :
  matching o handlers = [(EmptyString, c1); (key2, Fn h2)] ->
  switchOnKey o handlers defaultHandler = h2 o.
Proof.
  intros Hm. unfold switchOnKey.
  rewrite (switchOnKey_loop_first o handlers EmptyString c1 _ defaultHandler Hm).
  rewrite switchOnKey_loop_owned
    by (apply (matching_owned o handlers key2 (Fn h2)); rewrite Hm;
        right; by left).
  reflexivity.
Qed.

Lemma switchOnKey_empty_key_first_witness :
  matching empty_and_a [(EmptyString, Fn (fun _ : object => Ok 1%Z));
                        ("a", Fn (fun _ : object => Ok 2%Z))]
    = [(EmptyString, Fn (fun _ : object => Ok 1%Z));
       ("a", Fn (fun _ : object => Ok 2%Z))] /\
  switchOnKey empty_and_a [(EmptyString, Fn (fun _ : object => Ok 1%Z));
                           ("a", Fn (fun _ : object => Ok 2%Z))]
    (NotFn VUndefined) = Ok 2%Z.
Proof.
  assert (Hm : matching empty_and_a
                 [(EmptyString, Fn (fun _ : object => Ok 1%Z));
                  ("a", Fn (fun _ : object => Ok 2%Z))]
               = [(EmptyString, Fn (fun _ : object => Ok 1%Z));
                  ("a", Fn (fun _ : object => Ok 2%Z))])
    by (vm_compute; reflexivity).
  split; [exact Hm|].
  exact (switchOnKey_empty_key_first empty_and_a
           [(EmptyString, Fn (fun _ : object => Ok 1%Z));
            ("a", Fn (fun _ : object => Ok 2%Z))]
           (NotFn VUndefined) "a"
           (Fn (fun _ => Ok 1%Z)) (fun _ => Ok 2%Z) Hm).
Defined.

(** X14: as soon as one key of [handlers] is an own property of the
    object, the default handler plays no part: any two defaults give
    the same outcome. *)
Theorem switchOnKey_default_unused {R : Type} (o : object)
    (handlers : list (string * callee R)) (default1 default2 : callee R) :
  matching o handlers <> [] ->
  switchOnKey o handlers default1 = switchOnKey o handlers default2.
Proof.
  intros Hm. unfold switchOnKey.
  destruct (matching o handlers) as [|[key c] rest] eqn:Heq; [contradiction|].
  by rewrite !(switchOnKey_loop_first o handlers key c rest _ Heq).
Qed.

Lemma switchOnKey_default_unused_witness :
  matching only_a [("a", Fn (fun _ : object => Ok 1%Z))] <> [] /\
  switchOnKey only_a [("a", Fn (fun _ : object => Ok 1%Z))]
    (NotFn VUndefined) =
  switchOnKey only_a [("a", Fn (fun _ : object => Ok 1%Z))]
    (Fn (fun _ : object => Ok 0%Z)).
Proof.
  assert (Hm : matching only_a [("a", Fn (fun _ : object => Ok 1%Z))] <> [])
    by (vm_compute; discriminate).
  split; [exact Hm|].
  exact (switchOnKey_default_unused only_a
           [("a", Fn (fun _ : object => Ok 1%Z))] (NotFn VUndefined)
           (Fn (fun _ => Ok 0%Z)) Hm).
Defined.

(** ** [getLast] *)

(** X15: [getLast] returns [default_] on the empty sequence and the
    last element on any other, whatever [default_] is. *)
Theorem getLast_spec {T : Type} `{Inhabited T} (default_ : T) :
  getLast [] default_ = default_ /\
  forall (xs : list T) (x : T), getLast (xs ++ [x]) default_ = x.
Proof.
  split; [reflexivity|].
  intros xs x. unfold getLast. rewrite length_app. cbn [length].
  replace (length xs + 1) with (S (length xs)) by lia.
  cbn [to_boolean length_to_boolean Nat.eqb negb].
  replace (S (length xs) - 1) with (length xs) by lia.
  by apply list_lookup_total_middle.
Qed.

(** ** [maxBy] *)

Section MaxByFacts.
Context {T K : Type} `{Inhabited T} `{JsOrder K}.
Implicit Types (xs : list T) (key : T -> K) (m x : T).

(** The loop of [maxBy] from the current [max]: the result is [max]
    itself, with no larger key in [xs], or the first element of [xs]
    whose key is above [max] and all the keys before it. *)
Lemma maxBy_loop key xs :
  forall max,
  let m := foldl (fun max x => if js_gt (key x) (key max) then x else max)
             max xs in
  (m = max /\ Forall (fun x => js_le (key x) (key max) = true) xs) \/
  (js_lt (key max) (key m) = true /\
   Forall (fun x => js_le (key x) (key m) = true) xs /\
   exists i, xs !! i = Some m /\
     forall j y, j < i -> xs !! j = Some y -> js_lt (key y) (key m) = true).
Proof.
  induction xs as [|x xs IH]; intros max m; [left; by split|].
  subst m. cbn [foldl].
  destruct (js_gt (key x) (key max)) eqn:Hgt; unfold js_gt in Hgt.
  - destruct (IH x) as [[Hm Hall]|(Hlt & Hall & i & Hi & Hbefore)].
    + right. rewrite Hm. split; [exact Hgt|]. split.
      * apply Forall_cons. split; [apply js_le_refl|exact Hall].
      * exists 0. split; [reflexivity|]. intros j y Hj. lia.
    + right. split; [exact (js_lt_trans _ _ _ Hgt Hlt)|]. split.
      * apply Forall_cons. split; [|exact Hall].
        unfold js_le. by rewrite (js_lt_asym _ _ Hlt).
      * exists (S i). split; [exact Hi|].
        intros [|j] y Hj Hy; [by injection Hy as <-|].
        apply (Hbefore j y); [lia|exact Hy].
  - assert (Hx : js_le (key x) (key max) = true)
      by (unfold js_le; by rewrite Hgt).
    destruct (IH max) as [[Hm Hall]|(Hlt & Hall & i & Hi & Hbefore)].
    + left. split; [exact Hm|]. apply Forall_cons. by split.
    + right. split; [exact Hlt|]. split.
      * apply Forall_cons. split; [|exact Hall].
        unfold js_le.
        by rewrite (js_lt_asym _ _ (js_le_lt_trans _ _ _ Hx Hlt)).
      * exists (S i). split; [exact Hi|].
        intros [|j] y Hj Hy.
        -- injection Hy as <-. exact (js_le_lt_trans _ _ _ Hx Hlt).
        -- apply (Hbefore j y); [lia|exact Hy].
Qed.

End MaxByFacts.

(** X16: [maxBy] throws the assertion error on the empty sequence. On
    any other it returns an element of the sequence whose key no other
    key exceeds, and among the elements of that key the first: every
    element before it has a smaller key. *)
Theorem maxBy_first_maximum {T K : Type} `{Inhabited T} `{JsOrder K}
    (xs : list T) (key : T -> K) :
  maxBy [] key = Throw AssertionFailed /\
  (xs <> [] ->
   exists m i, maxBy xs key = Ok m /\ xs !! i = Some m /\
     (forall x, x ∈ xs -> js_le (key x) (key m) = true) /\
     (forall j y, j < i -> xs !! j = Some y -> js_lt (key y) (key m) = true)).
Proof.
  split; [reflexivity|].
  intros Hne. destruct xs as [|a xs]; [contradiction|].
  unfold maxBy. cbn [length assert to_boolean length_to_boolean Nat.eqb negb].
  change (assert (S (length xs))) with (Ok (S (length xs))).
  cbn [mbind result_bind]. change ((a :: xs) !!! 0) with a.
  destruct (maxBy_loop key (a :: xs) a)
    as [[Hm Hall]|(Hlt & Hall & i & Hi & Hbefore)].
  - exists a, 0. rewrite Hm. split; [reflexivity|]. split; [reflexivity|].
    split; [|intros j y Hj; lia].
    intros x Hx. by apply (proj1 (Forall_forall _ _) Hall).
  - eexists _, i. split; [reflexivity|]. split; [exact Hi|].
    split; [|exact Hbefore].
    intros x Hx. by apply (proj1 (Forall_forall _ _) Hall).
Qed.

Lemma maxBy_first_maximum_witness :
  [(1, 1); (2, 5); (3, 5)]%Z <> [] /\
  exists m i, maxBy [(1, 1); (2, 5); (3, 5)]%Z snd = Ok m /\
    [(1, 1); (2, 5); (3, 5)]%Z !! i = Some m /\
    (forall x, x ∈ [(1, 1); (2, 5); (3, 5)]%Z -> js_le (snd x) (snd m) = true) /\
    (forall j y, j < i -> [(1, 1); (2, 5); (3, 5)]%Z !! j = Some y ->
       js_lt (snd y) (snd m) = true).
Proof.
  split; [discriminate|].
  apply (proj2 (maxBy_first_maximum [(1, 1); (2, 5); (3, 5)]%Z snd)).
  discriminate.
Defined.

(** ** [makeObject] *)

Section MakeObjectFacts.
Implicit Types (obj : object * prototype) (entries rest : list (string * value))
  (name : string) (v : value).

Lemma set_property_lookup obj name v :
  name <> "__proto__" -> (set_property obj name v).1 !! name = Some v.
Proof.
  intros Hname. unfold set_property.
  rewrite decide_False by exact Hname. apply lookup_insert_eq.
Qed.

Lemma set_property_lookup_ne obj name name' v :
  name <> name' -> (set_property obj name' v).1 !! name = obj.1 !! name.
Proof.
  intros Hne. unfold set_property.
  case_decide; [destruct (reaches_accessor _ _); [reflexivity|]|];
    apply lookup_insert_ne; congruence.
Qed.

(** An assignment makes no own property of another name, and none is
    ever removed. *)
Lemma set_property_is_Some obj name name' v :
  is_Some ((set_property obj name' v).1 !! name) ->
  is_Some (obj.1 !! name) \/ name = name'.
Proof.
  destruct (decide (name = name')) as [->|Hne]; [by right|].
  rewrite set_property_lookup_ne by exact Hne. by left.
Qed.

(** The assignments of the loop, from the object [obj]. *)
Lemma makeObject_loop_other entries name :
  name ∉ (entries.*1) ->
  forall obj,
  (foldl (fun obj '(name, v) => set_property obj name v) obj entries).1 !! name
  = obj.1 !! name.
Proof.
  induction entries as [|[name' v'] entries IH]; intros Hnotin obj;
    [reflexivity|].
  cbn [foldl]. cbn in Hnotin. apply not_elem_of_cons in Hnotin as [Hne Hnotin].
  rewrite (IH Hnotin). by apply set_property_lookup_ne.
Qed.

Lemma makeObject_loop_is_Some entries name :
  forall obj,
  is_Some ((foldl (fun obj '(name, v) => set_property obj name v) obj entries).1
           !! name) ->
  is_Some (obj.1 !! name) \/ name ∈ (entries.*1).
Proof.
  induction entries as [|[name' v'] entries IH]; intros obj Hsome;
    [by left|].
  cbn [foldl] in Hsome. cbn [fmap list_fmap fst].
  destruct (IH _ Hsome) as [Hobj|Hin]; [|right; by right].
  destruct (set_property_is_Some _ _ _ _ Hobj) as [Hold| ->];
    [by left|right; by left].
Qed.

Lemma makeObject_loop_named entries name :
  name <> "__proto__" -> name ∈ (entries.*1) ->
  forall obj,
  is_Some ((foldl (fun obj '(name, v) => set_property obj name v) obj entries).1
           !! name).
Proof.
  intros Hname.
  induction entries as [|[name' v'] entries IH]; intros Hin obj;
    [by apply elem_of_nil in Hin|].
  cbn [foldl]. cbn [fmap list_fmap fst] in Hin.
  destruct (decide (name ∈ (entries.*1))) as [Hrest|Hrest]; [by apply IH|].
  apply elem_of_cons in Hin as [->|Hin]; [|contradiction].
  rewrite (makeObject_loop_other entries name' Hrest).
  rewrite set_property_lookup by exact Hname. by eexists.
Qed.

(** While the entries named [__proto__] hold neither an object nor
    [null], the prototype stays [Object.prototype] and the name is no
    own property. *)
Lemma makeObject_loop_prototype entries :
  (forall v, ("__proto__", v) ∈ entries -> object_or_null v = false) ->
  forall obj,
  obj.2 = ObjectPrototype -> obj.1 !! "__proto__" = None ->
  (foldl (fun obj '(name, v) => set_property obj name v) obj entries).2
    = ObjectPrototype /\
  (foldl (fun obj '(name, v) => set_property obj name v) obj entries).1
    !! "__proto__" = None.
Proof.
  induction entries as [|[name v] entries IH]; intros Hprim obj Hproto Hown;
    [by split|].
  cbn [foldl]. apply IH.
  - intros v' Hin. apply Hprim. by right.
  - unfold set_property. case_decide as Hname; [|exact Hproto].
    unfold reaches_accessor. unfold object in *. rewrite Hown, Hproto.
    cbn [snd]. subst name.
    specialize (Hprim v ltac:(by left)).
    destruct v; cbn in Hprim |- *; try discriminate; reflexivity.
  - unfold set_property. case_decide as Hname.
    + unfold reaches_accessor. unfold object in *. rewrite Hown, Hproto.
      exact Hown.
    + cbn [fst]. rewrite <- Hown. apply lookup_insert_ne. exact Hname.
Qed.

Lemma makeObject_last entries name v rest :
  name <> "__proto__" -> name ∉ (rest.*1) ->
  makeObject (entries ++ (name, v) :: rest) !! name = Some v.
Proof.
  intros Hname Hrest. unfold makeObject, makeObject_loop.
  rewrite foldl_app. cbn [foldl].
  rewrite (makeObject_loop_other rest name Hrest).
  by apply set_property_lookup.
Qed.

Lemma makeObject_is_Some entries name :
  is_Some (makeObject entries !! name) -> name ∈ (entries.*1).
Proof.
  unfold makeObject, makeObject_loop. intros Hsome.
  destruct (makeObject_loop_is_Some entries name _ Hsome) as [[v Hv]|Hin];
    [|exact Hin].
  cbn [fst] in Hv. by apply lookup_empty_Some in Hv.
Qed.

End MakeObjectFacts.

(** X17: in [makeObject] the last entry of a name wins: the object
    holds, under a name other than [__proto__], the value of the last
    entry with that name. *)
Theorem makeObject_last_wins (entries rest : list (string * value))
    (name : string) (v : value) :
  name <> "__proto__" ->
  name ∉ (rest.*1) ->
  makeObject (entries ++ (name, v) :: rest) !! name = Some v.
Proof.
  intros Hname Hrest. unfold makeObject, makeObject_loop.
  rewrite foldl_app. cbn [foldl].
  rewrite (makeObject_loop_other rest name Hrest).
  by apply set_property_lookup.
Qed.

Lemma makeObject_last_wins_witness :
  "a" <> "__proto__" /\ ("a" ∉ ([("b", VNull)].*1)) /\
  makeObject ([("a", VNumber 1)] ++ ("a", VNumber 3) :: [("b", VNull)]) !! "a"
  = Some (VNumber 3).
Proof.
  assert (Hne : "a" <> "__proto__") by discriminate.
  assert (Hnotin : "a" ∉ ([("b", VNull)].*1)).
  { cbn. intros Hin. apply list_elem_of_singleton in Hin. discriminate. }
  split; [exact Hne|]. split; [exact Hnotin|].
  exact (makeObject_last_wins [("a", VNumber 1)] [("b", VNull)] "a"
           (VNumber 3) Hne Hnotin).
Defined.

(** X18: every own property of [makeObject(entries)] is the name of an
    entry, and every name of an entry other than [__proto__] is an own
    property. [__proto__] is none as long as the entries of that name
    hold neither an object nor [null]: the assignment goes to the
    accessor of [Object.prototype], which ignores it. After an entry
    [['__proto__', null]] has taken the prototype away, an entry of
    that name does make an own property. *)
Theorem makeObject_keys (entries : list (string * value)) (name : string) :
  (is_Some (makeObject entries !! name) -> name ∈ (entries.*1)) /\
  (name <> "__proto__" -> name ∈ (entries.*1) ->
   is_Some (makeObject entries !! name)) /\
  ((forall v, ("__proto__", v) ∈ entries -> object_or_null v = false) ->
   makeObject entries !! "__proto__" = None) /\
  makeObject [("__proto__", VNull); ("__proto__", VNumber 1)] !! "__proto__"
  = Some (VNumber 1).
Proof.
  split; [apply makeObject_is_Some|]. split; [|split; [|reflexivity]].
  - intros Hname Hin. unfold makeObject, makeObject_loop.
    by apply makeObject_loop_named.
  - intros Hprim. unfold makeObject, makeObject_loop.
    by apply (makeObject_loop_prototype entries Hprim).
Qed.

Lemma makeObject_keys_witness :
  (forall v, ("__proto__", v) ∈ [("__proto__", VNumber 1); ("a", VNull)] ->
     object_or_null v = false) /\
  makeObject [("__proto__", VNumber 1); ("a", VNull)] !! "__proto__" = None /\
  "a" <> "__proto__" /\ ("a" ∈ ([("__proto__", VNumber 1); ("a", VNull)].*1)) /\
  is_Some (makeObject [("__proto__", VNumber 1); ("a", VNull)] !! "a").
Proof.
  assert (Hprim : forall v,
            ("__proto__", v) ∈ [("__proto__", VNumber 1); ("a", VNull)] ->
            object_or_null v = false).
  { intros v Hin.
    apply elem_of_cons in Hin as [Heq|Hin]; [by injection Heq as ->|].
    apply list_elem_of_singleton in Hin. discriminate. }
  assert (Hne : "a" <> "__proto__") by discriminate.
  assert (Hin : "a" ∈ ([("__proto__", VNumber 1); ("a", VNull)].*1)).
  { cbn. right. by left. }
  split; [exact Hprim|]. split.
  - exact (proj1 (proj2 (proj2
             (makeObject_keys [("__proto__", VNumber 1); ("a", VNull)] "a")))
             Hprim).
  - split; [exact Hne|]. split; [exact Hin|].
    exact (proj1 (proj2
             (makeObject_keys [("__proto__", VNumber 1); ("a", VNull)] "a"))
             Hne Hin).
Defined.

(** X19: when no name occurs twice among the entries and none is
    [__proto__], the object holds exactly the entries: [name] has the
    value [v] in [makeObject(entries)] if and only if [[name, v]] is
    one of the entries. *)
Theorem makeObject_entries (entries : list (string * value)) (name : string)
    (v : value) :
  NoDup (entries.*1) ->
  "__proto__" ∉ (entries.*1) ->
  (makeObject entries !! name = Some v <-> (name, v) ∈ entries).
Proof.
  intros Hnd Hproto.
  assert (Hin : forall name' v', (name', v') ∈ entries ->
                makeObject entries !! name' = Some v').
  { intros name' v' Hin.
    apply list_elem_of_split in Hin as (l1 & l2 & ->).
    rewrite fmap_app in Hnd, Hproto. cbn in Hnd, Hproto.
    apply NoDup_app in Hnd as (_ & _ & Hnd).
    apply NoDup_cons in Hnd as [Hnotin _].
    apply makeObject_last; [|exact Hnotin].
    intros ->. apply Hproto, elem_of_app. right. by left. }
  split; [|apply Hin].
  intros Hlookup.
  assert (Hsome : is_Some (makeObject entries !! name)) by eauto.
  apply makeObject_is_Some in Hsome as Hkey.
  apply list_elem_of_fmap in Hkey as ([name' v'] & -> & Hin').
  cbn in Hlookup. rewrite (Hin _ _ Hin') in Hlookup.
  by injection Hlookup as <-.
Qed.

Lemma makeObject_entries_witness :
  NoDup ([("a", VNumber 1); ("b", VNull)].*1) /\
  ("__proto__" ∉ ([("a", VNumber 1); ("b", VNull)].*1)) /\
  (makeObject [("a", VNumber 1); ("b", VNull)] !! "b" = Some VNull <->
   ("b", VNull) ∈ [("a", VNumber 1); ("b", VNull)]).
Proof.
  assert (Hnd : NoDup ([("a", VNumber 1); ("b", VNull)].*1)).
  { cbn. apply NoDup_cons. split; [|apply NoDup_singleton].
    intros Hin. apply list_elem_of_singleton in Hin. discriminate. }
  assert (Hproto : "__proto__" ∉ ([("a", VNumber 1); ("b", VNull)].*1)).
  { cbn. intros Hin. apply elem_of_cons in Hin as [Heq|Hin]; [discriminate|].
    apply list_elem_of_singleton in Hin. discriminate. }
  split; [exact Hnd|]. split; [exact Hproto|].
  exact (makeObject_entries [("a", VNumber 1); ("b", VNull)] "b" VNull
           Hnd Hproto).
Defined.

(** ** The generators *)

Section GeneratorsFacts.
Context {T : Type}.
Implicit Types (it : list T) (iterators iterables : list (list T)).

Lemma enumerate_from_lookup it :
  forall j i,
  Generators.enumerate_from j it !! i = (fun x => (j + i, x)) <$> it !! i.
Proof.
  induction it as [|x it IH]; intros j i; [reflexivity|].
  destruct i as [|i]; cbn [Generators.enumerate_from].
  - cbn. by rewrite Nat.add_0_r.
  - cbn [lookup list_lookup]. rewrite IH.
    destruct (it !! i); cbn; [|reflexivity]. do 2 f_equal. lia.
Qed.

Lemma generators_map_lookup_aux {U : Type} it (f : T -> nat -> U) i :
  Generators.map it f !! i = (fun x => f x i) <$> it !! i.
Proof.
  unfold Generators.map, Generators.enumerate.
  rewrite list_lookup_fmap, enumerate_from_lookup.
  by destruct (it !! i).
Qed.

(** All the iterators are done when the longest has no element left. *)
Lemma zip_all_done iterators :
  forallb Generators.done (Generators.iterator_next <$> iterators) = true <->
  max_list_with length iterators = 0.
Proof.
  induction iterators as [|it iterators IH]; [done|].
  cbn [fmap list_fmap forallb max_list_with].
  rewrite andb_true_iff, IH.
  destruct it as [|x it]; cbn; [|split; [intros [? _]; discriminate|lia]].
  split; [by intros [_ ?]|by split].
Qed.

Lemma zip_round_fst iterators :
  (Generators.zip_round iterators).2 = tail <$> iterators.
Proof.
  unfold Generators.zip_round.
  destruct (forallb _ _); cbn [snd];
    rewrite <- list_fmap_compose; by apply list_fmap_ext.
Qed.

Lemma zip_round_return iterators :
  max_list_with length iterators = 0 ->
  (Generators.zip_round iterators).1 = None.
Proof.
  intros Hmax. unfold Generators.zip_round.
  by rewrite (proj2 (zip_all_done iterators) Hmax).
Qed.

Lemma zip_round_yield iterators :
  max_list_with length iterators <> 0 ->
  (Generators.zip_round iterators).1 = Some ((fun it => it !! 0) <$> iterators).
Proof.
  intros Hmax. unfold Generators.zip_round.
  destruct (forallb _ _) eqn:Hall.
  - by apply zip_all_done in Hall.
  - cbn [fst]. f_equal. rewrite <- list_fmap_compose.
    apply list_fmap_ext. intros _ it _. cbn. apply head_lookup.
Qed.

Lemma max_length_tail iterators :
  max_list_with length (tail <$> iterators) =
  max_list_with length iterators - 1.
Proof.
  induction iterators as [|it iterators IH]; [reflexivity|].
  cbn [fmap list_fmap max_list_with]. rewrite IH.
  destruct it; cbn [tail length]; lia.
Qed.

End GeneratorsFacts.

(** X20: [enumerate] yields as many pairs as the iterable has items,
    and the pair at position [i] is [[i, x]] for the item [x] at
    position [i]. *)
Theorem enumerate_lookup {T : Type} (it : list T) :
  length (Generators.enumerate it) = length it /\
  forall i, Generators.enumerate it !! i = (fun x => (i, x)) <$> it !! i.
Proof.
  assert (Hlookup : forall i,
            Generators.enumerate it !! i = (fun x => (i, x)) <$> it !! i).
  { intros i. unfold Generators.enumerate. by rewrite enumerate_from_lookup. }
  split; [|exact Hlookup].
  destruct (Nat.lt_trichotomy (length (Generators.enumerate it)) (length it))
    as [Hlt|[Heq|Hgt]]; [|exact Heq|].
  - apply lookup_lt_is_Some in Hlt as [x Hx].
    pose proof (Hlookup (length (Generators.enumerate it))) as Hl.
    rewrite Hx in Hl. rewrite lookup_ge_None_2 in Hl by lia. discriminate.
  - apply lookup_lt_is_Some in Hgt as [p Hp].
    pose proof (Hlookup (length it)) as Hl.
    rewrite Hp in Hl. rewrite (lookup_ge_None_2 it) in Hl by lia.
    discriminate.
Qed.

(** X21: [map(it, f)] yields [f(x, i)] at position [i] for the item
    [x] of [it] at position [i], and nothing more. *)
Theorem generators_map_lookup {T U : Type} (it : list T) (f : T -> nat -> U) :
  Generators.map it f = imap (fun i x => f x i) it.
Proof.
  apply list_eq. intros i.
  by rewrite generators_map_lookup_aux, list_lookup_imap.
Qed.

(** X22: two [map]s in a row are one: [map(map(it, f), g)] yields what
    [map(it, (x, i) => g(f(x, i), i))] yields. *)
Theorem generators_map_map {T U V : Type} (it : list T) (f : T -> nat -> U)
    (g : U -> nat -> V) :
  Generators.map (Generators.map it f) g =
  Generators.map it (fun x i => g (f x i) i).
Proof.
  apply list_eq. intros i. rewrite !generators_map_lookup_aux.
  by destruct (it !! i).
Qed.

(** X23: [zip] runs as long as the longest of its iterables: it
    yields one row for each position below the greatest length, row
    [j] holding the item at position [j] of each iterable, or
    [undefined] where the iterable is shorter; with no iterable, or
    only empty ones, it yields nothing. *)
Theorem zip_longest {T : Type} (iterables : list (list T)) (fuel : nat) :
  max_list_with length iterables < fuel ->
  Generators.zip fuel iterables =
  Some ((fun j => (fun it => it !! j) <$> iterables)
        <$> seq 0 (max_list_with length iterables)).
Proof.
  unfold Generators.zip. revert fuel.
  remember (max_list_with length iterables) as n eqn:Hmax. symmetry in Hmax.
  revert iterables Hmax.
  induction n as [|n IH]; intros iterators Hmax fuel Hfuel;
    (destruct fuel as [|fuel]; [lia|]); cbn [Generators.zip_loop];
    pose proof (zip_round_fst iterators) as Hsnd;
    destruct (Generators.zip_round iterators) as [row iterators'] eqn:Hround;
    cbn [snd] in Hsnd; subst iterators'.
  - pose proof (zip_round_return iterators Hmax) as Hfst.
    rewrite Hround in Hfst. cbn [fst] in Hfst. by subst row.
  - pose proof (zip_round_yield iterators ltac:(lia)) as Hfst.
    rewrite Hround in Hfst. cbn [fst] in Hfst. subst row.
    rewrite (IH (tail <$> iterators)) by (try rewrite max_length_tail; lia).
    cbn [fmap option_fmap option_map seq list_fmap]. do 2 f_equal.
    rewrite <- fmap_S_seq, <- list_fmap_compose.
    apply list_fmap_ext. intros _ j _. cbn.
    rewrite <- list_fmap_compose. apply list_fmap_ext. intros _ it _. cbn.
    apply lookup_tail.
Qed.

Lemma zip_longest_witness :
  max_list_with length [[1; 2; 3]; [4]]%Z < 4 /\
  Generators.zip 4 [[1; 2; 3]; [4]]%Z =
  Some ((fun j => (fun it => it !! j) <$> [[1; 2; 3]; [4]]%Z)
        <$> seq 0 (max_list_with length [[1; 2; 3]; [4]]%Z)).
Proof.
  assert (Hfuel : max_list_with length [[1; 2; 3]; [4]]%Z < 4)
    by (vm_compute; lia).
  split; [exact Hfuel|].
  exact (zip_longest [[1; 2; 3]; [4]]%Z 4 Hfuel).
Defined.

(** ** [mod] on the circle *)

(** X24: on safe integers [mod] does not tell apart two dividends that
    differ by a multiple of the divisor, and leaves its own results
    alone: [mod(a + k * b, b) == mod(a, b)] and
    [mod(mod(a, b), b) == mod(a, b)]. *)
Theorem mod_periodic (dividend divisor k : Z) :
  is_safe_integer dividend ->
  is_safe_integer divisor ->
  is_safe_integer (dividend + k * divisor) ->
  divisor <> 0%Z ->
  mod_ (dividend + k * divisor) divisor = mod_ dividend divisor /\
  mod_ (mod_ dividend divisor) divisor = mod_ dividend divisor.
Proof.
  intros _ Hsafe _ Hd.
  assert (Hsize : (Z.abs divisor <= 2 ^ 53)%Z)
    by (unfold is_safe_integer, MAX_SAFE_INTEGER in Hsafe; lia).
  rewrite !mod_modulo by assumption. split.
  - apply Z.mod_add. exact Hd.
  - apply Z.mod_mod. exact Hd.
Qed.

Lemma mod_periodic_witness :
  is_safe_integer (-7) /\ is_safe_integer 3 /\
  is_safe_integer (-7 + 5 * 3) /\ (3 <> 0)%Z /\
  mod_ (-7 + 5 * 3) 3 = mod_ (-7) 3 /\ mod_ (mod_ (-7) 3) 3 = mod_ (-7) 3.
Proof.
  assert (H7 : is_safe_integer (-7)) by (vm_compute; discriminate).
  assert (H3 : is_safe_integer 3) by (vm_compute; discriminate).
  assert (H8 : is_safe_integer (-7 + 5 * 3)) by (vm_compute; discriminate).
  split; [exact H7|]. split; [exact H3|]. split; [exact H8|]. split; [lia|].
  apply (mod_periodic (-7) 3 5 H7 H3 H8). lia.
Defined.

(** ** The text of a digest *)

Lemma string_length_append (s1 s2 : string) :
  String.length (String.append s1 s2) = String.length s1 + String.length s2.
Proof. induction s1 as [|c s1 IH]; simpl; [reflexivity|]. by f_equal. Qed.

(** X25: the text [sha256] returns has no leading zero for a byte
    below 16: it is as long as twice the number of bytes less the
    number of bytes below 16, and two digests can have the same
    text. *)
Theorem hex_of_digest_length :
  (forall digest : list Byte.byte,
     String.length (hex_of_digest digest)
     + length (filter (fun i => Byte.to_N i < 16)%N digest)
     = 2 * length digest) /\
  hex_of_digest [Byte.x01; Byte.x10] = hex_of_digest [Byte.x11; Byte.x00].
Proof.
  split; [|reflexivity].
  induction digest as [|i digest IH]; [reflexivity|].
  unfold hex_of_digest in *. cbn [fmap list_fmap foldr length].
  rewrite string_length_append. unfold toString16 at 1.
  destruct (N.ltb_spec (Byte.to_N i) 16) as [Hlt|Hge].
  - rewrite filter_cons_True by exact Hlt. cbn [String.length length]. lia.
  - rewrite filter_cons_False by lia. cbn [String.length]. lia.
Qed.
